(** * Routing on a projected street graph: [codes/L7/osmnx_L7_routing.py]

    The script snaps two points to graph nodes ([ox.get_nearest_node]),
    asks networkx for a weighted shortest path ([nx.shortest_path] with a
    weight string, i.e. Dijkstra's algorithm) and turns the node sequence
    into a one-row route table (line geometry, node ids, line length).

    The script's own statements are embedded line by line.  The library
    calls it makes are embedded after the library routines they run, in the
    releases of the script's time (networkx 2.0: [nx.shortest_path] with a
    weight is [dijkstra_path], over [_weight_function] and
    [_dijkstra_multisource]; OSMnx [get_nearest_node] and
    [euclidean_dist_vec]; pandas [.loc], [max] and [idxmin]; shapely
    [LineString]); each definition names the routine it follows.

    Numbers: edge weights and identifiers are Python numbers on which the
    search only adds and compares, modelled as [Z]; the nearest-node lookup
    hands identifiers through a double, modelled by [float64_int].
    Coordinates are modelled as real numbers, because the Euclidean metric
    takes a square root; of the computed values the statements use the
    order and the quantities named, no law of the real field. *)

From Stdlib Require Import ZArith List String Reals Lra Lia DecimalString.
From stdpp Require Import gmap.
Import ListNotations.
Local Open Scope Z_scope.

(** ** Data model *)

(** A node identifier (an OSM id, a Python int). *)
Abbreviation node := Z (only parsing).

(** The attribute dictionary of one edge, restricted to its numeric
    entries (["length"], ["osmid"], ...), in insertion order. *)
Definition attrs := list (string * Z).

(** [d.get(k)] on an attribute dictionary. *)
Fixpoint attr_get (k : string) (d : attrs) : option Z :=
  match d with
  | [] => None
  | (k', v) :: d' => if String.eqb k k' then Some v else attr_get k d'
  end.

(** The parallel edges between one ordered node pair: the inner dictionary
    [G[u][v]] of a MultiDiGraph (edge key -> attribute dictionary).
    networkx removes the entry for [v] when the last parallel edge goes, so
    the dictionary holds at least one edge: a first one and the others. *)
Definition keydict := (attrs * list attrs)%type.

(** The attributes of a node: projected coordinates and its OSM id. *)
Record node_data := mk_node_data { nd_x : R; nd_y : R; nd_osmid : Z }.

(** A MultiDiGraph: [_node] (node -> attributes) and [_succ]
    (node -> successor -> parallel edges), both in insertion order. *)
Record MultiDiGraph := mk_graph {
  _node : list (node * node_data);
  _succ : list (node * list (node * keydict))
}.

(** Dictionary lookup in an insertion-ordered dictionary with integer
    keys. *)
Fixpoint assoc {A} (k : Z) (l : list (Z * A)) : option A :=
  match l with
  | [] => None
  | (k', a) :: l' => if Z.eqb k k' then Some a else assoc k l'
  end.

(** [G_succ[v]]. *)
Definition G_succ (G : MultiDiGraph) (v : node) : option (list (node * keydict)) :=
  assoc v (_succ G).

(** ** The weight function: networkx [_weight_function] *)

(** [attr.get(weight, 1)]: an edge without the key weighs 1. *)
Definition attr_weight (weight : string) (d : attrs) : Z :=
  match attr_get weight d with
  | Some w => w
  | None => 1
  end.

(** For a multigraph,
    [lambda u, v, d: min(attr.get(weight, 1) for attr in d.values())]. *)
Definition weight_function (weight : string) (d : keydict) : Z :=
  fold_left (fun m a => Z.min m (attr_weight weight a)) (snd d)
            (attr_weight weight (fst d)).

(** ** The fringe: a [heapq] of tuples [(distance, c, node)] *)

Definition item := (Z * nat * node)%type.

(** Tuple comparison as [heapq] uses it.  The counter [c] differs between
    any two tuples pushed, so the node is never compared. *)
Definition item_ltb (a b : item) : bool :=
  let '(d1, c1, _) := a in
  let '(d2, c2, _) := b in
  (d1 <? d2) || ((d1 =? d2) && (c1 <? c2)%nat).

(** The two operations of [heapq] on the list that holds the heap.  How the
    tuples are arranged inside the list is the module's business; a heap is
    given by its two operations. *)
Record heapq := mk_heapq {
  hpush : list item -> item -> list item;
  hpop : list item -> option (item * list item)
}.

(** What [heapq] promises: [heappush] adds the tuple, [heappop] fails on the
    empty heap only and otherwise takes out a tuple that no tuple of the
    heap is smaller than. *)
Record heapq_ok (H : heapq) : Prop := {
  hpush_perm : forall h x, Permutation (hpush H h x) (x :: h);
  hpop_nil : forall h, hpop H h = None -> h = [];
  hpop_min : forall h m r, hpop H h = Some (m, r) ->
      Permutation h (m :: r) /\ forall x, In x h -> item_ltb x m = false
}.

(** [heappush] on a heap kept as the plain collection of its tuples. *)
Definition heappush (h : list item) (x : item) : list item := x :: h.

(** [heappop] on such a heap: removes and returns the smallest tuple. *)
Fixpoint heappop (h : list item) : option (item * list item) :=
  match h with
  | [] => None
  | x :: h' =>
      match heappop h' with
      | None => Some (x, [])
      | Some (m, r) => if item_ltb m x then Some (m, x :: r) else Some (x, h')
      end
  end.

(** The heap the search is run with below. *)
Definition list_heap : heapq := {| hpush := heappush; hpop := heappop |}.

(** Another arrangement of the same heap: new tuples go to the far end. *)
Definition queue_heap : heapq :=
  {| hpush := fun h x => h ++ [x]; hpop := heappop |}.

(** ** The search: networkx [_dijkstra_multisource] with one source *)

(** What a query can raise. *)
Inductive exc :=
| KeyError            (* a dictionary or table has no such label *)
| ValueError          (* 'Contradictory paths found: negative weights?',
                         an empty graph, a line of fewer than two points *)
| IndexError          (* position 0 of an empty array *)
| NetworkXNoPath.     (* 'No path to <target>.' *)

(** The local variables of the search. *)
Record state := mk_state {
  dist : gmap Z Z;            (* final distances *)
  seen : gmap Z Z;            (* best distance seen so far *)
  paths : gmap Z (list Z);    (* the path recorded with [seen] *)
  fringe : list item;
  c : nat                     (* the next value of [count()] *)
}.

(** The body of [for u, e in G_succ[v].items()], for the node [v] just
    given the final distance [dv]. *)
Definition relax (H : heapq) (weight : string) (v : node) (dv : Z) (st : state)
    (ue : node * keydict) : exc + state :=
  let '(u, e) := ue in
  let cost := weight_function weight e in
  let vu_dist := dv + cost in
  let push :=
    match paths st !! v with
    | None => inl KeyError
    | Some pv =>
        inr {| dist := dist st;
               seen := <[u := vu_dist]> (seen st);
               paths := <[u := pv ++ [u]]> (paths st);
               fringe := hpush H (fringe st) (vu_dist, c st, u);
               c := S (c st) |}
    end in
  match dist st !! u with
  | Some du => if vu_dist <? du then inl ValueError else inr st
  | None =>
      match seen st !! u with
      | None => push
      | Some su => if vu_dist <? su then push else inr st
      end
  end.

(** The whole [for] loop; an exception leaves it. *)
Fixpoint relax_all (H : heapq) (weight : string) (v : node) (dv : Z)
    (nbrs : list (node * keydict)) (st : state) : exc + state :=
  match nbrs with
  | [] => inr st
  | ue :: nbrs' =>
      match relax H weight v dv st ue with
      | inl e => inl e
      | inr st' => relax_all H weight v dv nbrs' st'
      end
  end.

(** The [while fringe:] loop.  [fuel] bounds the number of iterations;
    [None] means the bound was too small. *)
Fixpoint dijkstra_loop (H : heapq) (G : MultiDiGraph) (weight : string)
    (target : node) (fuel : nat) (st : state) : option (exc + state) :=
  match fuel with
  | O => None
  | S fuel' =>
      match hpop H (fringe st) with
      | None => Some (inr st)
      | Some ((d, _, v), rest) =>
          let st1 := {| dist := dist st; seen := seen st; paths := paths st;
                        fringe := rest; c := c st |} in
          match dist st !! v with
          | Some _ => dijkstra_loop H G weight target fuel' st1
          | None =>
              let st2 := {| dist := <[v := d]> (dist st); seen := seen st;
                            paths := paths st; fringe := rest; c := c st |} in
              if v =? target then Some (inr st2)
              else
                match G_succ G v with
                | None => Some (inl KeyError)
                | Some nbrs =>
                    match relax_all H weight v d nbrs st2 with
                    | inl e => Some (inl e)
                    | inr st3 => dijkstra_loop H G weight target fuel' st3
                    end
                end
          end
      end
  end.

(** The state before the loop: [seen[source] = 0], the source pushed,
    [paths = {source: [source]}]. *)
Definition init_state (H : heapq) (source : node) : state :=
  {| dist := ∅;
     seen := {[ source := 0 ]};
     paths := {[ source := [source] ]};
     fringe := hpush H [] (0, O, source);
     c := 1%nat |}.

(** Every push is made while a node gets its final distance, once per
    adjacency entry at most, so the loop runs at most once per adjacency
    entry of the graph, plus once for the source. *)
Definition degree_sum (adj : list (node * list (node * keydict))) : nat :=
  fold_right (fun e n => (length (snd e) + n)%nat) O adj.

Definition enough_fuel (G : MultiDiGraph) : nat := S (S (degree_sum (_succ G))).

(** [dijkstra_path]: returns [[target]] at once when the target is the
    source, and otherwise [paths[target]] after the search, or raises
    NetworkXNoPath when the search gave the target no distance. *)
Definition dijkstra_path (H : heapq) (G : MultiDiGraph) (source target : node)
    (weight : string) : option (exc + list node) :=
  if target =? source then Some (inr [target])
  else
    match dijkstra_loop H G weight target (enough_fuel G) (init_state H source) with
    | None => None
    | Some (inl e) => Some (inl e)
    | Some (inr st) =>
        match dist st !! target, paths st !! target with
        | Some _, Some p => Some (inr p)
        | _, _ => Some (inl NetworkXNoPath)
        end
    end.

(** [nx.shortest_path(G, source, target, weight)] with a weight string is
    [dijkstra_path]. *)
Definition shortest_path (G : MultiDiGraph) (source target : node)
    (weight : string) : option (exc + list node) :=
  dijkstra_path list_heap G source target weight.

(** ** The node table: [nodes_proj] of [ox.graph_to_gdfs] *)

(** A shapely [Point(x, y)]. *)
Definition point := (R * R)%type.

(** [str(n)] for an int. *)
Definition str_int (n : Z) : string := NilZero.string_of_int (Z.to_int n).

(** One row of [nodes_proj]; the row label is the node identifier.  The
    [osmid] column holds text: [graph_to_gdfs] maps the [osmid] attribute
    of each node through [make_str]. *)
Record node_row := mk_node_row {
  row_x : R; row_y : R; row_osmid : string; row_geometry : point
}.

(** The rows of the table: one per node of the graph, in the graph's node
    order, with [geometry = Point(x, y)]. *)
Definition node_rows (G : MultiDiGraph) : list (node * node_row) :=
  map (fun nd => (fst nd,
                  {| row_x := nd_x (snd nd); row_y := nd_y (snd nd);
                     row_osmid := str_int (nd_osmid (snd nd));
                     row_geometry := (nd_x (snd nd), nd_y (snd nd)) |}))
      (_node G).

(** Line 94: [nodes_proj] of [ox.graph_to_gdfs(graph_proj, nodes=True,
    edges=True)].  On a graph without nodes the table has no [osmid]
    column and the call raises KeyError. *)
Definition nodes_proj (G : MultiDiGraph) : exc + list (node * node_row) :=
  match _node G with
  | [] => inl KeyError
  | _ :: _ => inr (node_rows G)
  end.

(** ** The target point (lines 133-141) *)

(** [Series.max()]; nothing to return on an empty column. *)
Fixpoint Rlist_max (l : list R) : option R :=
  match l with
  | [] => None
  | h :: t => match Rlist_max t with
              | None => Some h
              | Some m => Some (Rmax h m)
              end
  end.

(** [maxx = nodes_proj['x'].max()]. *)
Definition maxx (tbl : list (node * node_row)) : option R :=
  Rlist_max (map (fun r => row_x (snd r)) tbl).

(** [target_loc = nodes_proj.loc[nodes_proj['x']==maxx, :]]. *)
Definition target_loc (tbl : list (node * node_row)) (mx : R) : list (node * node_row) :=
  List.filter (fun r => if Req_dec_T (row_x (snd r)) mx then true else false) tbl.

(** [target_loc.geometry.values[0]], together with the label of that row. *)
Definition target_row (G : MultiDiGraph) : exc + (node * node_row) :=
  match nodes_proj G with
  | inl e => inl e
  | inr tbl =>
      match maxx tbl with
      | None => inl IndexError
      | Some mx => match target_loc tbl mx with
                   | [] => inl IndexError
                   | r :: _ => inr r
                   end
      end
  end.

Definition target_point (G : MultiDiGraph) : exc + point :=
  match target_row G with
  | inl e => inl e
  | inr r => inr (row_geometry (snd r))
  end.

(** ** Nearest node: OSMnx [get_nearest_node] *)

(** [euclidean_dist_vec(y1, x1, y2, x2)]:
    [((x1 - x2) ** 2 + (y1 - y2) ** 2) ** 0.5], over the real numbers.  The
    library computes it in doubles; the statements below use of a distance
    only what a computed distance has too: it is compared, it is not
    negative, and it is 0 from a point to itself. *)
Definition euclidean_dist_vec (y1 x1 y2 x2 : R) : R :=
  sqrt ((x1 - x2) ^ 2 + (y1 - y2) ^ 2).

(** The Euclidean distance between two points. *)
Definition euclidean (p q : point) : R :=
  euclidean_dist_vec (snd p) (fst p) (snd q) (fst q).

(** [Series.idxmin()]: the label of the first occurrence of the minimum,
    here paired with the minimum itself. *)
Fixpoint idxmin (l : list (node * R)) : option (node * R) :=
  match l with
  | [] => None
  | (n, d) :: l' =>
      match idxmin l' with
      | None => Some (n, d)
      | Some (n', d') => if Rlt_dec d' d then Some (n', d') else Some (n, d)
      end
  end.

(** The distance column: one entry per node, in node order, for the
    distance function selected by [method]. *)
Definition distances (metric : point -> point -> R) (G : MultiDiGraph)
    (p : point) : list (node * R) :=
  map (fun nd => (fst nd, metric p (nd_x (snd nd), nd_y (snd nd)))) (_node G).

(** [int(float(n))] for a node identifier: OSMnx puts identifiers and
    coordinates into one numpy array, of doubles, and returns
    [int(distances.idxmin())].  An identifier of more than 53 bits comes back
    rounded to the nearest double (ties to the even significand); identifiers
    are taken to be 64-bit integers, as OSM ids are. *)
Definition float64_int (n : Z) : Z :=
  let a := Z.abs n in
  let drop := Z.log2 a - 52 in
  if drop <=? 0 then n
  else
    let unit := 2 ^ drop in
    let q := a / unit in
    let r := a mod unit in
    let half := unit / 2 in
    let q' := if r <? half then q
              else if half <? r then q + 1
              else if Z.even q then q else q + 1 in
    Z.sgn n * (q' * unit).

(** [get_nearest_node(G, point, method, return_dist=True)] for a distance
    function [metric]; an empty graph raises ValueError. *)
Definition nearest (metric : point -> point -> R) (G : MultiDiGraph)
    (p : point) : exc + (node * R) :=
  match idxmin (distances metric G p) with
  | None => inl ValueError
  | Some r => inr (float64_int (fst r), snd r)
  end.

(** [ox.get_nearest_node(G, (y, x), method='euclidean')]: the point is
    passed as a (y, x) pair. *)
Definition get_nearest_node (G : MultiDiGraph) (yx : R * R) : exc + node :=
  match nearest euclidean G (snd yx, fst yx) with
  | inl e => inl e
  | inr r => inr (fst r)
  end.

(** Lines 151 and 153: [target_xy = (target_point.y, target_point.x)] and
    [target_node = ox.get_nearest_node(graph_proj, target_xy, ...)]. *)
Definition target_node (G : MultiDiGraph) : exc + node :=
  match target_point G with
  | inl e => inl e
  | inr tp => get_nearest_node G (snd tp, fst tp)
  end.

(** Lines 150 and 152, for the origin point (computed by [orig_point]
    below from the bounding box of the edges). *)
Definition orig_node (G : MultiDiGraph) (orig_point : point) : exc + node :=
  get_nearest_node G (snd orig_point, fst orig_point).

(** Lines 133-168 in the order of the script: the target point (line 141),
    the two nearest nodes (lines 152-153), and
    [route = nx.shortest_path(G=graph_proj, source=orig_node,
                              target=target_node, weight='distance')]. *)
Definition route (G : MultiDiGraph) (orig_point : point) : option (exc + list node) :=
  match target_point G with
  | inl e => Some (inl e)
  | inr tp =>
      match orig_node G orig_point with
      | inl e => Some (inl e)
      | inr o =>
          match get_nearest_node G (snd tp, fst tp) with
          | inl e => Some (inl e)
          | inr t => shortest_path G o t "distance"
          end
      end
  end.

(** ** The route table (lines 189-205) *)

(** [nodes_proj.loc[route]]: the rows of the labels, in the order of the
    labels; KeyError for a label the table does not have. *)
Fixpoint loc (tbl : list (node * node_row)) (labels : list node) : exc + list node_row :=
  match labels with
  | [] => inr []
  | n :: labels' =>
      match assoc n tbl with
      | None => inl KeyError
      | Some r => match loc tbl labels' with
                  | inl e => inl e
                  | inr rs => inr (r :: rs)
                  end
      end
  end.

(** shapely [LineString(points)]: the coordinates of the points in order.
    No point at all gives the empty line; a single point is refused:
    'LineStrings must have at least 2 coordinate tuples'. *)
Definition LineString (pts : list point) : exc + list point :=
  match pts with
  | [_] => inl ValueError
  | _ => inr pts
  end.

(** The [.length] of a line: the sum of the distances between consecutive
    coordinates, over the real numbers (the library adds doubles, segment
    by segment). *)
Fixpoint line_length (pts : list point) : R :=
  match pts with
  | p :: (q :: _) as rest => (euclidean p q + line_length rest)%R
  | _ => 0%R
  end.

(** [repr(s)] for a text of digits: the text between single quotes. *)
Definition repr_str (s : string) : string :=
  String.append "'" (String.append s "'").

(** [str(list)] for a list of such texts: ['['1', '2', '3']']. *)
Definition str_list (l : list string) : string :=
  String.append "[" (String.append (String.concat ", " (map repr_str l)) "]").

(** The single row of [route_geom]. *)
Record route_row := mk_route_row {
  geometry : list point;   (* route_line *)
  osmids : string;         (* str(list(route_nodes['osmid'].values)) *)
  length_m : R             (* route_geom.length *)
}.

(** [route_nodes = nodes_proj.loc[route]]. *)
Definition route_nodes (G : MultiDiGraph) (route : list node) : exc + list node_row :=
  match nodes_proj G with
  | inl e => inl e
  | inr tbl => loc tbl route
  end.

(** [route_line = LineString(list(route_nodes.geometry.values))]. *)
Definition route_line (G : MultiDiGraph) (route : list node) : exc + list point :=
  match route_nodes G route with
  | inl e => inl e
  | inr rows => LineString (map row_geometry rows)
  end.

(** The list whose [str] is stored: [list(route_nodes['osmid'].values)]. *)
Definition route_osmids (G : MultiDiGraph) (route : list node) : exc + list string :=
  match route_nodes G route with
  | inl e => inl e
  | inr rows => inr (map row_osmid rows)
  end.

(** Lines 198-205. *)
Definition route_geom (G : MultiDiGraph) (route : list node) : exc + route_row :=
  match route_nodes G route with
  | inl e => inl e
  | inr rows =>
      match LineString (map row_geometry rows) with
      | inl e => inl e
      | inr line =>
          inr {| geometry := line;
                 osmids := str_list (map row_osmid rows);
                 length_m := line_length line |}
      end
  end.

(** ** What the specification asks of the route record

    The script has no edge-based reconstruction; these definitions follow
    the specification's wording (section 4.4) and are compared below with
    what the script stores. *)
Module Spec.

(** The weight of an edge under a key; [None] stands for the infinite
    weight of an edge that lacks the key. *)
Definition edge_weight (key : string) (a : attrs) : option Z := attr_get key a.

(** Of two parallel edges, the one of smaller weight (the first on a
    tie). *)
Definition lighter (key : string) (a b : attrs) : attrs :=
  match edge_weight key a, edge_weight key b with
  | Some wa, Some wb => if wb <? wa then b else a
  | None, Some _ => b
  | _, _ => a
  end.

(** "select the minimum-weight connecting edge": among the parallel edges
    from [u] to [v]; [None] is BrokenPath. *)
Definition chosen_edge (G : MultiDiGraph) (key : string) (u v : node) : option attrs :=
  match G_succ G u with
  | None => None
  | Some nbrs =>
      match assoc v nbrs with
      | None => None
      | Some kd => Some (fold_left (lighter key) (snd kd) (fst kd))
      end
  end.

(** The chosen edges along a node sequence. *)
Fixpoint chosen_edges (G : MultiDiGraph) (key : string) (route : list node)
    : option (list attrs) :=
  match route with
  | u :: (v :: _) as rest =>
      match chosen_edge G key u v, chosen_edges G key rest with
      | Some a, Some l => Some (a :: l)
      | _, _ => None
      end
  | _ => Some []
  end.

(** "sum edge weights into a total". *)
Definition total_weight (G : MultiDiGraph) (key : string) (route : list node)
    : option Z :=
  match chosen_edges G key route with
  | None => None
  | Some l =>
      fold_right (fun a acc =>
                    match edge_weight key a, acc with
                    | Some w, Some t => Some (w + t)
                    | _, _ => None
                    end) (Some 0) l
  end.

(** "collect a chosen attribute (e.g., external segment identifier) from
    each traversed edge into an ordered list". *)
Definition segment_ids (G : MultiDiGraph) (key attribute : string)
    (route : list node) : option (list (option Z)) :=
  match chosen_edges G key route with
  | None => None
  | Some l => Some (map (attr_get attribute) l)
  end.

End Spec.

(** ** Vocabulary of the statements *)

(** The point at which a node lies. *)
Definition nd_point (d : node_data) : point := (nd_x d, nd_y d).

(** The coordinate of a node of the graph. *)
Definition coordinate (G : MultiDiGraph) (n : node) : option point :=
  match assoc n (_node G) with
  | None => None
  | Some d => Some (nd_point d)
  end.

(** The [osmid] attribute of a node of the graph. *)
Definition node_osmid (G : MultiDiGraph) (n : node) : option Z :=
  match assoc n (_node G) with
  | None => None
  | Some d => Some (nd_osmid d)
  end.

(** Every label of the sequence is a node of the graph. *)
Definition known_nodes (G : MultiDiGraph) (route : list node) : Prop :=
  forall n, In n route -> assoc n (_node G) <> None.

(** ** Example graphs *)

(** Two nodes at (0,0) and (3,4), joined by one edge of length 7 that
    carries the way identifier 900. *)
Definition two_nodes : MultiDiGraph :=
  {| _node := [(1, mk_node_data 0 0 1); (2, mk_node_data 3 4 2)];
     _succ := [(1, [(2, ([("length"%string, 7); ("osmid"%string, 900)], []))]);
               (2, [])] |}.

(** A triangle: the edge 1 -> 3 has no ["distance"]; the detour through 2
    has it on both edges. *)
Definition keyless_triangle : MultiDiGraph :=
  {| _node := [(1, mk_node_data 0 0 1); (2, mk_node_data 1 1 2);
               (3, mk_node_data 2 0 3)];
     _succ := [(1, [(3, ([("osmid"%string, 9)], []));
                    (2, ([("distance"%string, 5)], []))]);
               (2, [(3, ([("distance"%string, 5)], []))]);
               (3, [])] |}.

(** Two nodes whose only connecting edge has no ["distance"]. *)
Definition keyless_edge : MultiDiGraph :=
  {| _node := [(1, mk_node_data 0 0 1); (2, mk_node_data 1 0 2)];
     _succ := [(1, [(2, ([("osmid"%string, 9)], []))]); (2, [])] |}.

(** The square of the specification: nodes at (0,0), (10,0), (10,10) and
    (0,10), the perimeter with weight 10 on each side and the diagonal
    between nodes 1 and 3 with weight 12, every edge in both directions. *)
Definition square : MultiDiGraph :=
  {| _node := [(1, mk_node_data 0 0 1); (2, mk_node_data 10 0 2);
               (3, mk_node_data 10 10 3); (4, mk_node_data 0 10 4)];
     _succ := [(1, [(2, ([("distance"%string, 10)], []));
                    (4, ([("distance"%string, 10)], []));
                    (3, ([("distance"%string, 12)], []))]);
               (2, [(1, ([("distance"%string, 10)], []));
                    (3, ([("distance"%string, 10)], []))]);
               (3, [(2, ([("distance"%string, 10)], []));
                    (4, ([("distance"%string, 10)], []));
                    (1, ([("distance"%string, 12)], []))]);
               (4, [(3, ([("distance"%string, 10)], []));
                    (1, ([("distance"%string, 10)], []))])] |}.

(** Two components of two nodes each, with no edge between them. *)
Definition two_islands : MultiDiGraph :=
  {| _node := [(1, mk_node_data 0 0 1); (2, mk_node_data 1 0 2);
               (3, mk_node_data 5 0 3); (4, mk_node_data 6 0 4)];
     _succ := [(1, [(2, ([("distance"%string, 1)], []))]);
               (2, [(1, ([("distance"%string, 1)], []))]);
               (3, [(4, ([("distance"%string, 1)], []))]);
               (4, [(3, ([("distance"%string, 1)], []))])] |}.

(** A diamond with two routes of equal weight from 1 to 4; node 3 is listed
    before node 2 among the successors of node 1. *)
Definition diamond : MultiDiGraph :=
  {| _node := [(1, mk_node_data 0 0 1); (2, mk_node_data 1 1 2);
               (3, mk_node_data 1 (-1) 3); (4, mk_node_data 2 0 4)];
     _succ := [(1, [(3, ([("distance"%string, 1)], []));
                    (2, ([("distance"%string, 1)], []))]);
               (2, [(4, ([("distance"%string, 1)], []))]);
               (3, [(4, ([("distance"%string, 1)], []))]);
               (4, [])] |}.

(** A long street from 1 to 3 (length 100) and two short ones through
    node 2 (length 1 each); as on an OSMnx graph the edges carry ["length"]
    and no ["distance"]. *)
Definition long_street : MultiDiGraph :=
  {| _node := [(1, mk_node_data 0 0 1); (2, mk_node_data 1 0 2);
               (3, mk_node_data 2 0 3)];
     _succ := [(1, [(2, ([("length"%string, 1)], []));
                    (3, ([("length"%string, 100)], []))]);
               (2, [(3, ([("length"%string, 1)], []))]);
               (3, [])] |}.

(** A graph of a single node whose identifier, 2^53 + 1, is no double. *)
Definition far_id : MultiDiGraph :=
  {| _node := [(9007199254740993, mk_node_data 0 0 9007199254740993)];
     _succ := [(9007199254740993, [])] |}.


(** Two nodes on the same spot; node 2 was added to the graph first. *)
Definition same_spot : MultiDiGraph :=
  {| _node := [(2, mk_node_data 0 0 2); (1, mk_node_data 0 0 1)];
     _succ := [(2, []); (1, [])] |}.


(** ** Walks of the graph and the invariant of the search *)

(** [u] is a successor of [v], with the parallel edges [e]: an entry of
    [G_succ[v].items()]. *)
Definition succ_entry (G : MultiDiGraph) (v u : node) (e : keydict) : Prop :=
  exists nbrs, G_succ G v = Some nbrs /\ In (u, e) nbrs.

(** [walk G weight s p u w]: the node sequence [p] leads from [s] to [u]
    along edges of the graph, and its cumulative weight under the weight
    function of the search is [w]. *)
Inductive walk (G : MultiDiGraph) (weight : string) (s : node)
  : list node -> node -> Z -> Prop :=
| walk_start : walk G weight s [s] s 0
| walk_step p v w u e :
    walk G weight s p v w -> succ_entry G v u e ->
    walk G weight s (p ++ [u]) u (w + weight_function weight e).

(** The cumulative weight of a node sequence under a weight key, in the
    claims' words: each step weighs the least value of the key among the
    parallel edges it can take, and only edges that carry the key have a
    weight. *)
Definition key_min (key : string) (e : keydict) : option Z :=
  fold_left (fun acc a => match acc, attr_get key a with
                          | Some m, Some w => Some (Z.min m w)
                          | _, _ => None
                          end)
            (snd e) (attr_get key (fst e)).

Inductive key_walk (G : MultiDiGraph) (key : string) (s : node)
  : list node -> node -> Z -> Prop :=
| key_walk_start : key_walk G key s [s] s 0
| key_walk_step p v w u e m :
    key_walk G key s p v w -> succ_entry G v u e -> key_min key e = Some m ->
    key_walk G key s (p ++ [u]) u (w + m).

(** Every edge carries the key, with a value that is not negative. *)
Definition keyed_nonneg (key : string) (G : MultiDiGraph) : Prop :=
  forall v u e, succ_entry G v u e ->
    forall a, In a (fst e :: snd e) ->
      exists w, attr_get key a = Some w /\ 0 <= w.

Definition keyed_nonnegb (key : string) (G : MultiDiGraph) : bool :=
  forallb (fun a => forallb (fun ue =>
             forallb (fun d => match attr_get key d with
                               | None => false
                               | Some w => 0 <=? w
                               end)
                     (fst (snd ue) :: snd (snd ue)))
           (snd a))
          (_succ G).

(** The graph invariants of the data model: every edge leads to a node
    (which has an adjacency entry of its own), every node with adjacency is
    in the node table, and no edge weighs less than zero.  networkx keeps the
    first two whenever a node or an edge is added. *)
Definition closed_adjacency (G : MultiDiGraph) : Prop :=
  forall v u e, succ_entry G v u e -> G_succ G u <> None.

Definition nodes_listed (G : MultiDiGraph) : Prop :=
  forall v, G_succ G v <> None -> assoc v (_node G) <> None.

Definition nonneg_weights (G : MultiDiGraph) (weight : string) : Prop :=
  forall v u e, succ_entry G v u e -> 0 <= weight_function weight e.

(** The invariant of the search from [s].  [v] is the node whose successors
    are being relaxed and [todo] the successors still to come; at the head
    of the [while] loop [todo] is empty. *)
Record search_inv (G : MultiDiGraph) (weight : string) (s v : node)
    (todo : list (node * keydict)) (st : state) : Prop := {
  (* what is seen was reached by the recorded path *)
  inv_paths : forall u su, seen st !! u = Some su ->
      exists p, paths st !! u = Some p /\ walk G weight s p u su;
  (* a final distance is the seen one, and no walk is lighter *)
  inv_dist : forall x dx, dist st !! x = Some dx ->
      seen st !! x = Some dx /\ forall p w, walk G weight s p x w -> dx <= w;
  (* a seen node without final distance waits in the fringe *)
  inv_waiting : forall u su, seen st !! u = Some su -> dist st !! u = None ->
      exists k, In (su, k, u) (fringe st);
  (* a fringe entry is for a seen node and not below its seen distance *)
  inv_fringe : forall d k u, In (d, k, u) (fringe st) ->
      exists su, seen st !! u = Some su /\ su <= d;
  (* the edges out of a finished node have been relaxed *)
  inv_relaxed : forall x dx u e, dist st !! x = Some dx -> succ_entry G x u e ->
      (x = v /\ In (u, e) todo) \/
      exists su, seen st !! u = Some su /\ su <= dx + weight_function weight e;
  (* the source is seen, at distance 0 at most *)
  inv_source : exists s0, seen st !! s = Some s0 /\ s0 <= 0;
  (* what is seen has an adjacency entry *)
  inv_adjacent : forall u su, seen st !! u = Some su -> G_succ G u <> None
}.

(** The adjacency entries whose node has no final distance yet. *)
Fixpoint pending (adj : list (node * list (node * keydict))) (d : gmap Z Z) : nat :=
  match adj with
  | [] => O
  | (x, nbrs) :: adj' =>
      match d !! x with
      | None => (length nbrs + pending adj' d)%nat
      | Some _ => pending adj' d
      end
  end.

(** The number of iterations the [while] loop can still make. *)
Definition measure (G : MultiDiGraph) (st : state) : nat :=
  (length (fringe st) + pending (_succ G) (dist st))%nat.

(** What the search leaves for the target [t]: a final distance with a
    lightest walk recorded for it, or no final distance and no walk at
    all. *)
Definition search_post (G : MultiDiGraph) (weight : string) (s t : node)
    (st : state) : Prop :=
  match dist st !! t with
  | Some d => exists p, paths st !! t = Some p /\ walk G weight s p t d /\
                        forall p' w', walk G weight s p' t w' -> d <= w'
  | None => forall p' w', ~ walk G weight s p' t w'
  end.

(** The graph in which every edge that lacks the key [weight] carries it
    with the value 1. *)
Definition attrs_default (weight : string) (a : attrs) : attrs :=
  match attr_get weight a with
  | Some _ => a
  | None => a ++ [(weight, 1)]
  end.

Definition keydict_default (weight : string) (e : keydict) : keydict :=
  (attrs_default weight (fst e), map (attrs_default weight) (snd e)).

Definition graph_default (weight : string) (G : MultiDiGraph) : MultiDiGraph :=
  {| _node := _node G;
     _succ := map (fun a => (fst a, map (fun ue => (fst ue, keydict_default weight (snd ue)))
                                        (snd a)))
                  (_succ G) |}.

(** Every edge of the graph has the key. *)
Definition all_keyed (weight : string) (G : MultiDiGraph) : Prop :=
  forall v u e, succ_entry G v u e ->
    forall a, In a (fst e :: snd e) -> attr_get weight a <> None.

(** The graph invariants as checks that run. *)
Definition closed_adjacencyb (G : MultiDiGraph) : bool :=
  forallb (fun a => forallb (fun ue => match G_succ G (fst ue) with
                                       | Some _ => true
                                       | None => false
                                       end) (snd a))
          (_succ G).

Definition nodes_listedb (G : MultiDiGraph) : bool :=
  forallb (fun a => match assoc (fst a) (_node G) with
                    | Some _ => true
                    | None => false
                    end)
          (_succ G).

Definition nonneg_weightsb (G : MultiDiGraph) (weight : string) : bool :=
  forallb (fun a => forallb (fun ue => 0 <=? weight_function weight (snd ue)) (snd a))
          (_succ G).

(** ** Two runs of the search *)

(** The counter of a fringe tuple. *)
Definition counter (x : item) : nat := snd (fst x).

(** Two runs are at the same point: the same dictionaries and counter, and
    the same tuples in the fringe, however each heap arranges them; the
    counters of the tuples are distinct and below the next counter. *)
Record same_search (st1 st2 : state) : Prop := {
  same_dist : dist st1 = dist st2;
  same_seen : seen st1 = seen st2;
  same_paths : paths st1 = paths st2;
  same_c : c st1 = c st2;
  same_fringe : Permutation (fringe st1) (fringe st2);
  distinct_counters : List.NoDup (map counter (fringe st1));
  counters_below : forall x, In x (fringe st1) -> (counter x < c st1)%nat
}.

(** Two steps of two runs end alike: the same exception, or states at the
    same point. *)
Definition same_outcome (r1 r2 : exc + state) : Prop :=
  match r1, r2 with
  | inl e1, inl e2 => e1 = e2
  | inr a, inr b => same_search a b
  | _, _ => False
  end.

Definition same_run (r1 r2 : option (exc + state)) : Prop :=
  match r1, r2 with
  | None, None => True
  | Some a, Some b => same_outcome a b
  | _, _ => False
  end.

(** ** The routes the search records *)

(** What holds of the recorded paths whatever the weights are: each is a
    walk from the source to its node, and apart from its last node it runs
    over nodes that have their final distance, without visiting any node
    twice. *)
Record paths_inv (G : MultiDiGraph) (weight : string) (s : node)
    (st : state) : Prop := {
  pinv_walk : forall u p, paths st !! u = Some p ->
      exists w, walk G weight s p u w;
  pinv_simple : forall u p, paths st !! u = Some p ->
      exists pre, p = pre ++ [u] /\
                  (forall x, In x pre -> dist st !! x <> None) /\
                  List.NoDup p
}.

(** No edge of the graph carries the key. *)
Definition keyless (weight : string) (G : MultiDiGraph) : Prop :=
  forall v u e, succ_entry G v u e ->
    forall a, In a (fst e :: snd e) -> attr_get weight a = None.

Definition keylessb (weight : string) (G : MultiDiGraph) : bool :=
  forallb (fun a => forallb (fun ue =>
             forallb (fun d => match attr_get weight d with
                               | None => true
                               | Some _ => false
                               end)
                     (fst (snd ue) :: snd (snd ue)))
           (snd a))
          (_succ G).

(** ** The rest of the script *)

(** [Series.min()]; nothing to return on an empty column. *)
Fixpoint Rlist_min (l : list R) : option R :=
  match l with
  | [] => None
  | h :: t => match Rlist_min t with
              | None => Some h
              | Some m => Some (Rmin h m)
              end
  end.

(** [edges_proj.unary_union.bounds] (line 120): the tuple
    (minx, miny, maxx, maxy) over the coordinates of all the edge lines,
    given as the geometry column of [edges_proj]; the empty tuple, here
    [None], when there is no coordinate. *)
Definition bounds (geoms : list (list point)) : option (R * R * R * R) :=
  let pts := List.concat geoms in
  match Rlist_min (map fst pts), Rlist_min (map snd pts),
        Rlist_max (map fst pts), Rlist_max (map snd pts) with
  | Some minx, Some miny, Some maxx, Some maxy => Some (minx, miny, maxx, maxy)
  | _, _, _, _ => None
  end.

(** [box(minx, miny, maxx, maxy).centroid]: the centre of the rectangle,
    over the real numbers (the library computes it in doubles). *)
Definition box_centroid (b : R * R * R * R) : point :=
  let '(minx, miny, maxx, maxy) := b in
  ((minx + maxx) / 2, (miny + maxy) / 2)%R.

(** Lines 120 and 129: [bbox] is [box] applied to the four unpacked bounds
    and [orig_point = bbox.centroid]; with no bounds [box] cannot be called
    (TypeError), here [None]. *)
Definition orig_point (geoms : list (list point)) : option point :=
  match bounds geoms with
  | None => None
  | Some b => Some (box_centroid b)
  end.

(** Lines 158-162: [o_closest = nodes_proj.loc[orig_node]],
    [t_closest = nodes_proj.loc[target_node]], the two rows of
    [od_nodes]. *)
Definition od_nodes (G : MultiDiGraph) (o t : node) : exc + (node_row * node_row) :=
  match nodes_proj G with
  | inl e => inl e
  | inr tbl =>
      match assoc o tbl with
      | None => inl KeyError
      | Some ro => match assoc t tbl with
                   | None => inl KeyError
                   | Some rt => inr (ro, rt)
                   end
      end
  end.

(** Lines 133-205 in the order of the script, from the origin point on:
    the target point, the two nearest nodes, their rows, the route and the
    route row. *)
Definition script (G : MultiDiGraph) (op : point) : option (exc + route_row) :=
  match target_point G with
  | inl e => Some (inl e)
  | inr tp =>
      match orig_node G op with
      | inl e => Some (inl e)
      | inr o =>
          match get_nearest_node G (snd tp, fst tp) with
          | inl e => Some (inl e)
          | inr t =>
              match od_nodes G o t with
              | inl e => Some (inl e)
              | inr _ =>
                  match shortest_path G o t "distance" with
                  | None => None
                  | Some (inl e) => Some (inl e)
                  | Some (inr r) => Some (route_geom G r)
                  end
              end
          end
      end
  end.

(** Each node carries its own identifier as [osmid], as OSMnx sets it. *)
Definition osmid_is_id (G : MultiDiGraph) : Prop :=
  forall n d, In (n, d) (_node G) -> nd_osmid d = n.

(** Every edge has an edge back of the same weight: a network of two-way
    streets. *)
Definition two_way (G : MultiDiGraph) (weight : string) : Prop :=
  forall v u e, succ_entry G v u e ->
    exists e', succ_entry G u v e' /\
               weight_function weight e' = weight_function weight e.

Definition two_wayb (G : MultiDiGraph) (weight : string) : bool :=
  forallb (fun a =>
    forallb (fun ue =>
      match G_succ G (fst ue) with
      | None => false
      | Some back =>
          existsb (fun xe => (fst xe =? fst a) &&
                             (weight_function weight (snd xe) =?
                              weight_function weight (snd ue)))
                  back
      end) (snd a))
    (_succ G).
(** * Route reconstruction *)

Lemma assoc_node_rows G n :
  assoc n (node_rows G) =
  match assoc n (_node G) with
  | None => None
  | Some d => Some {| row_x := nd_x d; row_y := nd_y d;
                      row_osmid := str_int (nd_osmid d);
                      row_geometry := (nd_x d, nd_y d) |}
  end.
Proof.
  unfold node_rows. induction (_node G) as [|[k d] l IH]; simpl; [reflexivity|].
  destruct (n =? k); [reflexivity | exact IH].
Qed.

(** The node table of a graph that has nodes. *)
Lemma nodes_proj_rows G : _node G <> [] -> nodes_proj G = inr (node_rows G).
Proof. unfold nodes_proj. destruct (_node G); [congruence | reflexivity]. Qed.

Lemma known_nonempty G route :
  known_nodes G route -> route <> [] -> _node G <> [].
Proof.
  intros Hk Hne Hnil. destruct route as [|n route]; [congruence|].
  apply (Hk n); [now left|]. rewrite Hnil. reflexivity.
Qed.

(** [.loc] succeeds on known labels and returns their rows in order. *)
Lemma loc_known G route :
  known_nodes G route ->
  exists rows ids, loc (node_rows G) route = inr rows /\
    map (coordinate G) route = map (fun r => Some (row_geometry r)) rows /\
    map (node_osmid G) route = map Some ids /\
    map row_osmid rows = map str_int ids.
Proof.
  unfold known_nodes, coordinate, node_osmid.
  induction route as [|n route IH]; intros Hk; simpl.
  - exists [], []. auto.
  - destruct IH as (rows & ids & Hr & Hc & Ho & Ht).
    { intros m Hm. apply Hk. now right. }
    rewrite assoc_node_rows.
    specialize (Hk n (or_introl eq_refl)).
    destruct (assoc n (_node G)) as [d|]; [|congruence].
    rewrite Hr. eexists; exists (nd_osmid d :: ids). split; [reflexivity|].
    simpl. rewrite Hc, Ho, Ht. auto.
Qed.

Lemma route_nodes_known G route :
  known_nodes G route -> route <> [] ->
  exists rows ids, route_nodes G route = inr rows /\
    map (coordinate G) route = map (fun r => Some (row_geometry r)) rows /\
    map (node_osmid G) route = map Some ids /\
    map row_osmid rows = map str_int ids.
Proof.
  intros Hk Hne. unfold route_nodes.
  rewrite (nodes_proj_rows G (known_nonempty G route Hk Hne)).
  apply loc_known, Hk.
Qed.

Lemma LineString_two pts :
  (2 <= length pts)%nat -> LineString pts = inr pts.
Proof. destruct pts as [|p [|q pts]]; simpl; intros; try lia; reflexivity. Qed.

(** The route row of a sequence of two or more known nodes. *)
Lemma route_geom_known G route :
  known_nodes G route -> (2 <= length route)%nat ->
  exists rows ids,
    route_nodes G route = inr rows /\
    map (coordinate G) route = map (fun r => Some (row_geometry r)) rows /\
    map (node_osmid G) route = map Some ids /\
    map row_osmid rows = map str_int ids /\
    route_line G route = inr (map row_geometry rows) /\
    route_geom G route =
      inr {| geometry := map row_geometry rows;
             osmids := str_list (map row_osmid rows);
             length_m := line_length (map row_geometry rows) |}.
Proof.
  intros Hk Hlen.
  assert (Hne : route <> []) by (intros ->; simpl in Hlen; lia).
  destruct (route_nodes_known G route Hk Hne) as (rows & ids & Hr & Hc & Ho & Ht).
  exists rows, ids. repeat split; try assumption.
  - unfold route_line. rewrite Hr. apply LineString_two.
    rewrite length_map. apply (f_equal (@length _)) in Hc.
    rewrite !length_map in Hc. lia.
  - unfold route_geom. rewrite Hr, LineString_two; [reflexivity|].
    rewrite length_map. apply (f_equal (@length _)) in Hc.
    rewrite !length_map in Hc. lia.
Qed.

Lemma known_two_nodes : known_nodes two_nodes [1; 2].
Proof. intros n [<-|[<-|[]]]; simpl; discriminate. Defined.

Lemma euclidean_3_4 : euclidean (0, 0)%R (3, 4)%R = 5%R.
Proof.
  unfold euclidean, euclidean_dist_vec; simpl.
  replace ((0 - 3) * ((0 - 3) * 1) + (0 - 4) * ((0 - 4) * 1))%R with (5 * 5)%R by lra.
  apply sqrt_square; lra.
Qed.

(** C9 fails as stated: for a route of one node (source and target are the
    same node) shapely refuses to build the line. *)
Lemma route_line_single_node :
  ~ (exists line, route_line two_nodes [1] = inr line /\
                  map (coordinate two_nodes) [1] = map Some line).
Proof. intros (line & H & _). simpl in H. discriminate. Qed.

(** C9 (amended): for every route of at least two nodes of the graph, the
    line built from it has exactly one coordinate per node, in the order of
    the route: coordinate i of the line is the coordinate of node i. *)
Theorem route_line_coordinates G route :
  known_nodes G route -> (2 <= length route)%nat ->
  exists line, route_line G route = inr line /\
               map (coordinate G) route = map Some line.
Proof.
  intros Hk Hlen.
  destruct (route_geom_known G route Hk Hlen) as (rows & ids & _ & Hc & _ & _ & Hl & _).
  exists (map row_geometry rows). split; [exact Hl|].
  rewrite Hc, map_map. reflexivity.
Qed.

Lemma route_line_coordinates_witness :
  known_nodes two_nodes [1; 2] /\ (2 <= length [1; 2])%nat /\
  exists line, route_line two_nodes [1; 2] = inr line /\
               map (coordinate two_nodes) [1; 2] = map Some line.
Proof.
  split; [exact known_two_nodes|]. split; [simpl; lia|].
  apply (route_line_coordinates two_nodes [1; 2]); [exact known_two_nodes | simpl; lia].
Defined.

(** C3 fails as stated: the length stored for the route 1, 2 of
    [two_nodes] is 5, the straight distance from (0,0) to (3,4), while the
    edge chosen between the two nodes weighs 7. *)
Lemma length_m_not_edge_weight :
  ~ (forall rg w, route_geom two_nodes [1; 2] = inr rg ->
                  Spec.total_weight two_nodes "length" [1; 2] = Some w ->
                  length_m rg = IZR w).
Proof.
  intros H. specialize (H _ 7 eq_refl eq_refl). simpl in H.
  rewrite euclidean_3_4 in H. lra.
Qed.

(** C3 (amended): for every route of at least two nodes of the graph, the
    [length_m] of the route row is the length of the route line, that is
    the sum of the Euclidean distances between the coordinates of
    consecutive route nodes; it is read from the node table alone, so a
    graph with the same nodes and any other edges gives the same row. *)
Theorem length_m_is_line_length G route :
  known_nodes G route -> (2 <= length route)%nat ->
  exists rg coords,
    route_geom G route = inr rg /\
    map (coordinate G) route = map Some coords /\
    length_m rg = line_length coords /\
    forall G', _node G' = _node G -> route_geom G' route = inr rg.
Proof.
  intros Hk Hlen.
  destruct (route_geom_known G route Hk Hlen) as (rows & ids & _ & Hc & _ & _ & _ & Hg).
  eexists; exists (map row_geometry rows). split; [exact Hg|].
  split; [rewrite Hc, map_map; reflexivity|].
  split; [reflexivity|].
  intros G' HG'. rewrite <- Hg.
  unfold route_geom, route_nodes, nodes_proj, node_rows. rewrite HG'. reflexivity.
Qed.

Lemma length_m_is_line_length_witness :
  known_nodes two_nodes [1; 2] /\ (2 <= length [1; 2])%nat /\
  exists rg coords,
    route_geom two_nodes [1; 2] = inr rg /\
    map (coordinate two_nodes) [1; 2] = map Some coords /\
    length_m rg = line_length coords /\
    forall G', _node G' = _node two_nodes -> route_geom G' [1; 2] = inr rg.
Proof.
  split; [exact known_two_nodes|]. split; [simpl; lia|].
  apply (length_m_is_line_length two_nodes [1; 2]); [exact known_two_nodes | simpl; lia].
Defined.

(** C8 fails as stated: for the route 1, 2 of [two_nodes] the list whose
    text is stored holds the identifiers of the two nodes, as the texts
    '1' and '2', not the identifier 900 of the one edge traversed. *)
Lemma osmids_not_per_edge :
  ~ (forall ids segs, route_osmids two_nodes [1; 2] = inr ids ->
                      Spec.segment_ids two_nodes "length" "osmid" [1; 2] = Some segs ->
                      map Some ids = map (option_map str_int) segs).
Proof. intros H. specialize (H _ _ eq_refl eq_refl). discriminate. Qed.

(** C8 (amended): for every route of at least two nodes of the graph, the
    [osmids] cell of the route row is one text: an opening bracket, then
    the [osmid] attribute of each node of the route, in route order, written
    in decimal between single quotes and separated by a comma and a space,
    then a closing bracket (the [str] of the list of the nodes' [osmid]
    texts).  There is one entry per node, and no edge attribute is
    collected. *)
Theorem osmids_are_node_ids G route :
  known_nodes G route -> (2 <= length route)%nat ->
  exists rg ids,
    route_geom G route = inr rg /\
    map (node_osmid G) route = map Some ids /\
    osmids rg =
      String.append "["
        (String.append
           (String.concat ", "
              (map (fun n => String.append "'"
                               (String.append (NilZero.string_of_int (Z.to_int n)) "'"))
                   ids))
           "]").
Proof.
  intros Hk Hlen.
  destruct (route_geom_known G route Hk Hlen) as (rows & ids & _ & _ & Ho & Ht & _ & Hg).
  eexists; exists ids. split; [exact Hg|]. split; [exact Ho|].
  simpl. unfold str_list. rewrite Ht, map_map. reflexivity.
Qed.

Lemma osmids_are_node_ids_witness :
  known_nodes two_nodes [1; 2] /\ (2 <= length [1; 2])%nat /\
  exists rg ids,
    route_geom two_nodes [1; 2] = inr rg /\
    map (node_osmid two_nodes) [1; 2] = map Some ids /\
    osmids rg =
      String.append "["
        (String.append
           (String.concat ", "
              (map (fun n => String.append "'"
                               (String.append (NilZero.string_of_int (Z.to_int n)) "'"))
                   ids))
           "]").
Proof.
  split; [exact known_two_nodes|]. split; [simpl; lia|].
  apply (osmids_are_node_ids two_nodes [1; 2]); [exact known_two_nodes | simpl; lia].
Defined.

(** The cell of the route 1, 2 of [two_nodes]. *)
Example osmids_two_nodes :
  exists rg, route_geom two_nodes [1; 2] = inr rg /\
             osmids rg = "['1', '2']"%string.
Proof. eexists; split; [reflexivity|]. vm_compute. reflexivity. Qed.

(** * Nearest node *)

Section Idxmin.

Lemma idxmin_nil l : idxmin l = None -> l = [].
Proof.
  destruct l as [|[n d] l]; simpl; [reflexivity|].
  destruct (idxmin l) as [[n' d']|]; [|discriminate].
  destruct (Rlt_dec d' d); discriminate.
Qed.

(** [idxmin] returns the first entry of minimal value. *)
Lemma idxmin_spec l n d :
  idxmin l = Some (n, d) ->
  exists pre post, l = pre ++ (n, d) :: post /\
    (forall x, In x pre -> (d < snd x)%R) /\
    (forall x, In x post -> (d <= snd x)%R).
Proof.
  revert n d. induction l as [|[a da] l IH]; simpl; intros n d H; [discriminate|].
  destruct (idxmin l) as [[n' d']|] eqn:E.
  - destruct (IH _ _ eq_refl) as (pre & post & -> & Hpre & Hpost).
    destruct (Rlt_dec d' da) as [Hlt|Hge]; inversion H; subst; clear H.
    + exists ((a, da) :: pre), post. split; [reflexivity|]. split; [|exact Hpost].
      intros x [<-|Hx]; [exact Hlt | apply Hpre, Hx].
    + exists [], (pre ++ (n', d') :: post). split; [reflexivity|].
      split; [intros x []|].
      intros x Hx. apply in_app_or in Hx. destruct Hx as [Hx|[<-|Hx]].
      * specialize (Hpre x Hx). lra.
      * simpl. lra.
      * specialize (Hpost x Hx). lra.
  - apply idxmin_nil in E. subst l. inversion H; subst.
    exists [], []. split; [reflexivity|]. split; intros x [].
Qed.

(** Conversely, an entry below everything before it and not above anything
    after it is the one returned. *)
Lemma idxmin_first pre n d post :
  (forall x, In x pre -> (d < snd x)%R) ->
  (forall x, In x post -> (d <= snd x)%R) ->
  idxmin (pre ++ (n, d) :: post) = Some (n, d).
Proof.
  intros Hpre Hpost. induction pre as [|[a da] pre IH]; simpl.
  - destruct (idxmin post) as [[n' d']|] eqn:E; [|reflexivity].
    destruct (idxmin_spec _ _ _ E) as (p1 & p2 & -> & _ & _).
    assert (d <= d')%R by (apply (Hpost (n', d')), in_or_app; right; now left).
    destruct (Rlt_dec d' d); [lra | reflexivity].
  - rewrite IH by (intros x Hx; apply Hpre; now right).
    assert (d < da)%R by (apply (Hpre (a, da)); now left).
    destruct (Rlt_dec d da); [reflexivity | lra].
Qed.

End Idxmin.

Lemma euclidean_nonneg p q : (0 <= euclidean p q)%R.
Proof. unfold euclidean, euclidean_dist_vec. apply sqrt_pos. Qed.

Lemma euclidean_same p : euclidean p p = 0%R.
Proof.
  unfold euclidean, euclidean_dist_vec.
  replace ((fst p - fst p) ^ 2 + (snd p - snd p) ^ 2)%R with 0%R by ring.
  apply sqrt_0.
Qed.

(** ** Identifiers through doubles *)

(** An identifier of at most 53 bits comes back as it is. *)
Lemma float64_int_exact n : Z.abs n <= 2 ^ 53 -> float64_int n = n.
Proof.
  intros Hn. unfold float64_int.
  destruct (Z.leb_spec (Z.log2 (Z.abs n) - 52) 0) as [|Hbig]; [reflexivity|].
  assert (Hpos : 0 < Z.abs n).
  { destruct (Z.lt_ge_cases 0 (Z.abs n)) as [|Hle]; [assumption|].
    rewrite (Z.log2_nonpos _ Hle) in Hbig. lia. }
  assert (Hlow : 2 ^ 53 <= Z.abs n) by (apply Z.log2_le_pow2; lia).
  assert (Hcase : n = 2 ^ 53 \/ n = - 2 ^ 53) by lia.
  destruct Hcase as [-> | ->]; vm_compute; reflexivity.
Qed.

(** The identifier 2^53 + 1 comes back as 2^53. *)
Example float64_int_rounds : float64_int 9007199254740993 = 9007199254740992.
Proof. vm_compute. reflexivity. Qed.

Lemma nearest_in_graph metric G p n d :
  nearest metric G p = inr (n, d) ->
  exists m data, In (m, data) (_node G) /\ n = float64_int m /\
                 d = metric p (nd_point data).
Proof.
  unfold nearest. destruct (idxmin (distances metric G p)) as [[n' d']|] eqn:E;
    [|discriminate].
  simpl. intros Heq. injection Heq as Hn Hd.
  destruct (idxmin_spec _ _ _ E) as (pre & post & Hl & _ & _).
  assert (Hin : In (n', d') (distances metric G p))
    by (rewrite Hl; apply in_or_app; right; now left).
  unfold distances in Hin. apply in_map_iff in Hin.
  destruct Hin as ([n0 data] & Hnd & Hin). simpl in Hnd.
  injection Hnd as Hn0 Hd0.
  exists n0, data. split; [exact Hin|]. split; [congruence|].
  unfold nd_point. congruence.
Qed.

(** The lookup returns the first node, in the graph's node order, of least
    distance; its identifier comes back through a double. *)
Lemma nearest_first_least metric G p :
  _node G <> [] ->
  exists n data pre post,
    nearest metric G p = inr (float64_int n, metric p (nd_point data)) /\
    _node G = pre ++ (n, data) :: post /\
    (forall x, In x pre ->
               (metric p (nd_point data) < metric p (nd_point (snd x)))%R) /\
    (forall x, In x post ->
               (metric p (nd_point data) <= metric p (nd_point (snd x)))%R).
Proof.
  intros Hne. unfold nearest.
  destruct (idxmin (distances metric G p)) as [[n d]|] eqn:E.
  - destruct (idxmin_spec _ _ _ E) as (pre & post & Hl & Hpre & Hpost).
    unfold distances in Hl.
    apply map_eq_app in Hl. destruct Hl as (pre' & rest & HG & Hp & Hr).
    apply map_eq_cons in Hr. destruct Hr as ([n0 data] & post' & -> & Hd & Hq).
    simpl in Hd. inversion Hd; subst n0 d. clear Hd.
    exists n, data, pre', post'. split; [reflexivity|]. split; [exact HG|]. split.
    + intros x Hx. apply (Hpre (fst x, metric p (nd_point (snd x)))).
      rewrite <- Hp.
      apply (in_map (fun nd => (fst nd, metric p (nd_x (snd nd), nd_y (snd nd))))), Hx.
    + intros x Hx. apply (Hpost (fst x, metric p (nd_point (snd x)))).
      rewrite <- Hq.
      apply (in_map (fun nd => (fst nd, metric p (nd_x (snd nd), nd_y (snd nd))))), Hx.
  - apply idxmin_nil in E. unfold distances in E.
    apply map_eq_nil in E. contradiction.
Qed.

(** Two nodes on one spot: the lookup returns the one that comes first in
    the graph's node order, here node 2, not the lowest identifier. *)
Example same_spot_first :
  nearest euclidean same_spot (0, 0)%R = inr (2, 0%R).
Proof.
  unfold nearest.
  change (distances euclidean same_spot (0, 0)%R)
    with ([] ++ (2, euclidean (0, 0)%R (0, 0)%R)
             :: [(1, euclidean (0, 0)%R (0, 0)%R)]).
  rewrite idxmin_first.
  - cbn [fst snd]. rewrite euclidean_same. reflexivity.
  - intros x [].
  - intros x [<-|[]]. simpl. lra.
Qed.


(** * The target point *)

Lemma Rlist_max_spec l :
  l <> [] ->
  exists m, Rlist_max l = Some m /\ In m l /\ forall x, In x l -> (x <= m)%R.
Proof.
  induction l as [|h t IH]; [congruence|]. intros _. simpl.
  destruct t as [|h' t'].
  - exists h. simpl. split; [reflexivity|]. split; [now left|].
    intros x [<-|[]]. lra.
  - destruct IH as (m & -> & Hin & Hmax); [discriminate|].
    exists (Rmax h m). split; [reflexivity|]. split.
    + unfold Rmax. destruct (Rle_dec h m); [right; exact Hin | now left].
    + intros x [<-|Hx].
      * apply Rmax_l.
      * eapply Rle_trans; [apply Hmax, Hx | apply Rmax_r].
Qed.

(** The head of a filtered list is the first element that passes. *)
Lemma filter_head {A} (f : A -> bool) l r rest :
  List.filter f l = r :: rest ->
  exists pre post, l = pre ++ r :: post /\ f r = true /\
                   forall x, In x pre -> f x = false.
Proof.
  induction l as [|a l IH]; simpl; [discriminate|].
  destruct (f a) eqn:E; intros H.
  - inversion H; subst. exists [], l. split; [reflexivity|]. split; [exact E|].
    intros x [].
  - destruct (IH H) as (pre & post & -> & Hr & Hpre).
    exists (a :: pre), post. split; [reflexivity|]. split; [exact Hr|].
    intros x [<-|Hx]; [exact E | apply Hpre, Hx].
Qed.


(** * The shortest-path search *)

(** ** The fringe *)

Lemma heappop_nil h : heappop h = None -> h = [].
Proof.
  destruct h as [|x h]; simpl; [reflexivity|].
  destruct (heappop h) as [[m r]|]; [|discriminate].
  destruct (item_ltb m x); discriminate.
Qed.

Lemma item_ltb_dist_false a b : item_ltb a b = false -> fst (fst b) <= fst (fst a).
Proof.
  destruct a as [[d1 c1] n1], b as [[d2 c2] n2]; simpl.
  rewrite orb_false_iff, Z.ltb_ge. lia.
Qed.

Lemma item_ltb_asym a b : item_ltb a b = true -> item_ltb b a = false.
Proof.
  destruct a as [[d1 c1] n1], b as [[d2 c2] n2]; simpl.
  rewrite orb_true_iff, andb_true_iff, orb_false_iff, andb_false_iff,
    !Z.ltb_lt, !Z.ltb_ge, !Z.eqb_eq, !Z.eqb_neq, Nat.ltb_lt, Nat.ltb_ge. lia.
Qed.

Lemma item_ltb_irrefl a : item_ltb a a = false.
Proof.
  destruct a as [[d1 c1] n1]; simpl.
  rewrite Z.ltb_irrefl, Nat.ltb_irrefl, andb_false_r. reflexivity.
Qed.

Lemma item_ltb_chain a b x :
  item_ltb a b = false -> item_ltb b x = false -> item_ltb a x = false.
Proof.
  destruct a as [[d1 c1] n1], b as [[d2 c2] n2], x as [[d3 c3] n3]; simpl.
  rewrite !orb_false_iff, !andb_false_iff,
    !Z.ltb_ge, !Z.eqb_neq, !Nat.ltb_ge. lia.
Qed.

(** Two tuples neither of which is smaller have the same distance and the
    same counter. *)
Lemma item_ltb_tie a b :
  item_ltb a b = false -> item_ltb b a = false ->
  fst (fst a) = fst (fst b) /\ snd (fst a) = snd (fst b).
Proof.
  destruct a as [[d1 c1] n1], b as [[d2 c2] n2]; simpl.
  rewrite !orb_false_iff, !andb_false_iff,
    !Z.ltb_ge, !Z.eqb_neq, !Nat.ltb_ge. lia.
Qed.

(** [heappop] takes the smallest tuple out of the heap. *)
Lemma heappop_spec h m r :
  heappop h = Some (m, r) ->
  Permutation h (m :: r) /\ forall x, In x h -> item_ltb x m = false.
Proof.
  revert m r. induction h as [|x h IH]; simpl; intros m r Hp; [discriminate|].
  destruct (heappop h) as [[m' r']|] eqn:E.
  - destruct (IH _ _ eq_refl) as [Hperm Hmin].
    destruct (item_ltb m' x) eqn:Hlt; inversion Hp; subst; clear Hp.
    + split.
      * rewrite Hperm. apply perm_swap.
      * intros y [<-|Hy]; [apply item_ltb_asym, Hlt | apply Hmin, Hy].
    + split; [reflexivity|].
      intros y [<-|Hy]; [apply item_ltb_irrefl|].
      eapply item_ltb_chain; [apply Hmin, Hy | exact Hlt].
  - apply heappop_nil in E. subst h. inversion Hp; subst.
    split; [reflexivity|]. intros y [<-|[]]. apply item_ltb_irrefl.
Qed.

Lemma list_heap_ok : heapq_ok list_heap.
Proof.
  constructor; simpl.
  - reflexivity.
  - apply heappop_nil.
  - apply heappop_spec.
Qed.

Lemma queue_heap_ok : heapq_ok queue_heap.
Proof.
  constructor; simpl.
  - intros h x. rewrite Permutation_app_comm. reflexivity.
  - apply heappop_nil.
  - apply heappop_spec.
Qed.

(** A heap takes out a tuple of the least distance. *)
Lemma hpop_least H h m r :
  heapq_ok H -> hpop H h = Some (m, r) ->
  Permutation h (m :: r) /\ forall x, In x h -> fst (fst m) <= fst (fst x).
Proof.
  intros Hok Hp. destruct (hpop_min H Hok _ _ _ Hp) as [Hperm Hmin].
  split; [exact Hperm|]. intros x Hx. apply item_ltb_dist_false, Hmin, Hx.
Qed.

(** ** Termination: the fuel of the search is never used up *)

Section Termination.

Variable H : heapq.
Hypothesis Hok : heapq_ok H.

Lemma relax_frame weight v dv st ue st' :
  relax H weight v dv st ue = inr st' ->
  dist st' = dist st /\ (length (fringe st') <= S (length (fringe st)))%nat.
Proof.
  unfold relax. destruct ue as [u e].
  assert (Hpush : forall x, length (hpush H (fringe st) x) = S (length (fringe st))).
  { intros x. rewrite (Permutation_length (hpush_perm H Hok _ x)). reflexivity. }
  destruct (dist st !! u) as [du|].
  - destruct (_ <? _); intros E; inversion E; subst. split; [reflexivity | lia].
  - destruct (seen st !! u) as [su|].
    + destruct (_ <? _).
      * destruct (paths st !! v); intros E; inversion E; subst; simpl.
        rewrite Hpush. split; [reflexivity | lia].
      * intros E; inversion E; subst. split; [reflexivity | lia].
    + destruct (paths st !! v); intros E; inversion E; subst; simpl.
      rewrite Hpush. split; [reflexivity | lia].
Qed.

Lemma relax_all_frame weight v dv nbrs st st' :
  relax_all H weight v dv nbrs st = inr st' ->
  dist st' = dist st /\
  (length (fringe st') <= length (fringe st) + length nbrs)%nat.
Proof.
  revert st. induction nbrs as [|ue nbrs IH]; cbn [relax_all]; intros st E.
  - inversion E; subst. split; [reflexivity | simpl; lia].
  - destruct (relax H weight v dv st ue) as [e|st1] eqn:E1; [discriminate|].
    apply relax_frame in E1. destruct E1 as [Hd Hf].
    destruct (IH _ E) as [Hd' Hf']. split; [congruence | simpl; lia].
Qed.

Lemma pending_insert_le adj (d : gmap Z Z) v dv :
  (pending adj (<[v := dv]> d) <= pending adj d)%nat.
Proof.
  induction adj as [|[x nbrs] adj IH]; simpl; [lia|].
  destruct (decide (v = x)) as [->|Hne].
  - rewrite lookup_insert_eq. destruct (d !! x); lia.
  - rewrite lookup_insert_ne by exact Hne. destruct (d !! x); lia.
Qed.

Lemma pending_insert adj (d : gmap Z Z) v dv nbrs :
  d !! v = None -> assoc v adj = Some nbrs ->
  (pending adj (<[v := dv]> d) + length nbrs <= pending adj d)%nat.
Proof.
  intros Hv. induction adj as [|[x nb] adj IH]; simpl; [discriminate|].
  destruct (Z.eqb_spec v x) as [->|Hne]; intros E.
  - inversion E; subst. rewrite lookup_insert_eq, Hv.
    pose proof (pending_insert_le adj d x dv). lia.
  - rewrite lookup_insert_ne by exact Hne. specialize (IH E).
    destruct (d !! x); lia.
Qed.

Lemma dijkstra_loop_terminates G weight target fuel st :
  (measure G st < fuel)%nat ->
  dijkstra_loop H G weight target fuel st <> None.
Proof.
  revert st. induction fuel as [|fuel IH]; intros st Hm; [lia|].
  cbn [dijkstra_loop].
  destruct (hpop H (fringe st)) as [[[[d k] v] rest]|] eqn:Hpop; [|discriminate].
  apply (hpop_min H Hok) in Hpop. destruct Hpop as [Hperm _].
  apply Permutation_length in Hperm. simpl in Hperm.
  unfold measure in *.
  destruct (dist st !! v) as [dv|] eqn:Hv.
  - apply IH. simpl. lia.
  - destruct (v =? target); [discriminate|].
    destruct (G_succ G v) as [nbrs|] eqn:Hadj; [|discriminate].
    destruct (relax_all _ _ _ _ _ _) as [e|st3] eqn:Hrel; [discriminate|].
    apply relax_all_frame in Hrel. simpl in Hrel. destruct Hrel as [Hd Hf].
    apply IH. rewrite Hd.
    pose proof (pending_insert (_succ G) (dist st) v d nbrs Hv Hadj). lia.
Qed.

Lemma pending_empty adj : pending adj ∅ = degree_sum adj.
Proof.
  induction adj as [|[x nbrs] adj IH]; simpl; [reflexivity|].
  rewrite lookup_empty, IH. reflexivity.
Qed.

Lemma init_measure G s : (measure G (init_state H s) < enough_fuel G)%nat.
Proof.
  unfold measure, enough_fuel. simpl. rewrite pending_empty.
  rewrite (Permutation_length (hpush_perm H Hok _ _)). simpl. lia.
Qed.

Lemma dijkstra_path_returns G s t weight : dijkstra_path H G s t weight <> None.
Proof.
  unfold dijkstra_path.
  destruct (t =? s); [discriminate|].
  pose proof (dijkstra_loop_terminates G weight t (enough_fuel G) (init_state H s)
                (init_measure G s)) as Hterm.
  destruct (dijkstra_loop _ _ _ _ _ _) as [[e|st]|].
  - discriminate.
  - destruct (dist st !! t), (paths st !! t); discriminate.
  - congruence.
Qed.

End Termination.

(** ** The invariant of the search *)

Section Search.

Variable H : heapq.
Hypothesis Hok : heapq_ok H.
Variable G : MultiDiGraph.
Variable weight : string.
Variable s : node.
Hypothesis Hclosed : closed_adjacency G.
Hypothesis Hnonneg : nonneg_weights G weight.

Lemma in_hpush h x y : In y (hpush H h x) <-> y = x \/ In y h.
Proof.
  split.
  - intros Hy. apply (Permutation_in _ (hpush_perm H Hok h x)) in Hy.
    destruct Hy as [<-|Hy]; [now left | now right].
  - intros Hy. apply (Permutation_in _ (Permutation_sym (hpush_perm H Hok h x))).
    destruct Hy as [->|Hy]; [now left | now right].
Qed.

Lemma walk_ends p u w :
  walk G weight s p u w -> head p = Some s /\ last p = Some u.
Proof.
  induction 1 as [|p v w u e Hw [IHh IHl] He]; [split; reflexivity|].
  split.
  - destruct p; [discriminate | exact IHh].
  - apply last_snoc.
Qed.

Lemma walk_nonneg p u w : walk G weight s p u w -> 0 <= w.
Proof.
  induction 1 as [|p v w u e Hw IH He]; [lia|].
  specialize (Hnonneg _ _ _ He). lia.
Qed.

Lemma walk_longer p u w :
  walk G weight s p u w -> u <> s -> (2 <= length p)%nat.
Proof.
  induction 1 as [|p v w u e Hw IH He]; [congruence|].
  intros _. rewrite length_app. simpl.
  destruct p; [|simpl; lia].
  apply walk_ends in Hw. destruct Hw; discriminate.
Qed.

Lemma walk_source_adjacent p u w :
  walk G weight s p u w -> u <> s -> G_succ G s <> None.
Proof.
  induction 1 as [|p v w u e Hw IH He]; [congruence|].
  intros _. destruct (decide (v = s)) as [->|Hne]; [|apply IH, Hne].
  destruct He as (nbrs & Hadj & _). congruence.
Qed.

(** Every node on a walk has an adjacency entry, when the source has. *)
Lemma walk_adjacent p u w :
  walk G weight s p u w -> G_succ G s <> None ->
  forall n, In n p -> G_succ G n <> None.
Proof.
  induction 1 as [|p v w u e Hw IH He]; intros Hs n Hn.
  - destruct Hn as [<-|[]]. exact Hs.
  - apply in_app_or in Hn. destruct Hn as [Hn|[<-|[]]].
    + apply IH; assumption.
    + eapply Hclosed, He.
Qed.

Lemma init_inv : G_succ G s <> None -> search_inv G weight s s [] (init_state H s).
Proof.
  intros Hs. constructor; simpl.
  - intros u su E. apply lookup_singleton_Some in E. destruct E as [<- <-].
    exists [s]. rewrite lookup_singleton_eq. split; [reflexivity | constructor].
  - intros x dx E. rewrite lookup_empty in E. discriminate.
  - intros u su E _. apply lookup_singleton_Some in E. destruct E as [<- <-].
    exists O. apply in_hpush. now left.
  - intros d k u E. apply in_hpush in E. destruct E as [E|[]]. inversion E; subst.
    exists 0. rewrite lookup_singleton_eq. split; [reflexivity | lia].
  - intros x dx u e E. rewrite lookup_empty in E. discriminate.
  - exists 0. rewrite lookup_singleton_eq. split; [reflexivity | lia].
  - intros u su E. apply lookup_singleton_Some in E. destruct E as [<- <-]. exact Hs.
Qed.

(** No walk to a node without final distance is lighter than everything in
    the fringe. *)
Lemma fringe_lower_bound v st p u w :
  search_inv G weight s v [] st ->
  walk G weight s p u w -> dist st !! u = None ->
  exists d k x, In (d, k, x) (fringe st) /\ d <= w.
Proof.
  intros [HP HA HC HB HD HF HK]. induction 1 as [|p v0 w u e Hw IH He]; intros Hu.
  - destruct HF as (s0 & Hs0 & Hle).
    destruct (HC _ _ Hs0 Hu) as (k & Hin). eauto.
  - destruct (dist st !! v0) as [dv0|] eqn:Hv0.
    + destruct (HD _ _ _ _ Hv0 He) as [[_ []]|(su & Hsu & Hle)].
      destruct (HA _ _ Hv0) as [_ Hopt]. specialize (Hopt _ _ Hw).
      destruct (HC _ _ Hsu Hu) as (k & Hin).
      exists su, k, u. split; [exact Hin | lia].
    + destruct (IH eq_refl) as (d & k & x & Hin & Hle).
      specialize (Hnonneg _ _ _ He).
      exists d, k, x. split; [exact Hin | lia].
Qed.

(** Relaxing an edge towards a node that is new, or is now reached by a
    lighter walk, keeps the invariant. *)
Lemma push_inv v dv pv u e todo st :
  search_inv G weight s v ((u, e) :: todo) st ->
  dist st !! v = Some dv -> paths st !! v = Some pv ->
  succ_entry G v u e ->
  dist st !! u = None ->
  (forall su, seen st !! u = Some su -> dv + weight_function weight e < su) ->
  search_inv G weight s v todo
    {| dist := dist st;
       seen := <[u := dv + weight_function weight e]> (seen st);
       paths := <[u := pv ++ [u]]> (paths st);
       fringe := hpush H (fringe st) (dv + weight_function weight e, c st, u);
       c := S (c st) |}.
Proof.
  intros [HP HA HC HB HD HF HK] Hv Hpv He Hu Hless.
  assert (Hwu : walk G weight s (pv ++ [u]) u (dv + weight_function weight e)).
  { destruct (HA _ _ Hv) as [Hsv _]. destruct (HP _ _ Hsv) as (p & Hp & Hw).
    rewrite Hpv in Hp. inversion Hp; subst. eapply walk_step; eassumption. }
  constructor; simpl.
  - intros u' su'. destruct (decide (u = u')) as [<-|Hne].
    + rewrite !lookup_insert_eq. intros [= <-]. eauto.
    + rewrite !lookup_insert_ne by exact Hne. apply HP.
  - intros x dx Hx. destruct (HA _ _ Hx) as [Hsx Hopt]. split; [|exact Hopt].
    rewrite lookup_insert_ne; [exact Hsx | congruence].
  - intros u' su'. destruct (decide (u = u')) as [<-|Hne].
    + rewrite lookup_insert_eq. intros [= <-] _. exists (c st).
      apply in_hpush. now left.
    + rewrite lookup_insert_ne by exact Hne. intros Hs' Hd'.
      destruct (HC _ _ Hs' Hd') as (k & Hin). exists k. apply in_hpush. now right.
  - intros d k u' Hdk. apply in_hpush in Hdk. destruct Hdk as [Hnew|Hin].
    + inversion Hnew; subst. rewrite lookup_insert_eq. eexists; split; [reflexivity | lia].
    + destruct (HB _ _ _ Hin) as (su' & Hs' & Hle).
      destruct (decide (u = u')) as [<-|Hne].
      * rewrite lookup_insert_eq. eexists; split; [reflexivity|].
        specialize (Hless _ Hs'). lia.
      * rewrite lookup_insert_ne by exact Hne. eauto.
  - intros x dx u' e' Hx He'.
    destruct (HD _ _ _ _ Hx He') as [[-> [Heq|Hin]]|(su' & Hs' & Hle)].
    + inversion Heq; subst. right. rewrite lookup_insert_eq.
      rewrite Hv in Hx. inversion Hx; subst.
      eexists; split; [reflexivity | lia].
    + left. split; [reflexivity | exact Hin].
    + right. destruct (decide (u = u')) as [<-|Hne].
      * rewrite lookup_insert_eq. eexists; split; [reflexivity|].
        specialize (Hless _ Hs'). lia.
      * rewrite lookup_insert_ne by exact Hne. eauto.
  - destruct HF as (s0 & Hs0 & Hle).
    destruct (decide (u = s)) as [->|Hne].
    + rewrite lookup_insert_eq. eexists; split; [reflexivity|].
      specialize (Hless _ Hs0). lia.
    + rewrite lookup_insert_ne by exact Hne. eauto.
  - intros u' su'. destruct (decide (u = u')) as [<-|Hne].
    + intros _. eapply Hclosed, He.
    + rewrite lookup_insert_ne by exact Hne. apply HK.
Qed.

(** An edge that brings nothing new leaves the state as it is. *)
Lemma skip_inv v dv u e todo st su :
  search_inv G weight s v ((u, e) :: todo) st ->
  dist st !! v = Some dv ->
  seen st !! u = Some su -> su <= dv + weight_function weight e ->
  search_inv G weight s v todo st.
Proof.
  intros [HP HA HC HB HD HF HK] Hv Hsu Hle.
  constructor; try assumption.
  intros x dx u' e' Hx He'.
  destruct (HD _ _ _ _ Hx He') as [[-> [Heq|Hin]]|Hr].
  - inversion Heq; subst. right. rewrite Hv in Hx. inversion Hx; subst. eauto.
  - left. split; [reflexivity | exact Hin].
  - right. exact Hr.
Qed.

(** One pass of the [for] loop keeps the invariant and raises nothing. *)
Lemma relax_inv v dv u e todo st :
  search_inv G weight s v ((u, e) :: todo) st ->
  dist st !! v = Some dv -> succ_entry G v u e ->
  exists st', relax H weight v dv st (u, e) = inr st' /\
              search_inv G weight s v todo st'.
Proof.
  intros Hinv Hv He.
  destruct (inv_dist _ _ _ _ _ _ Hinv _ _ Hv) as [Hsv _].
  destruct (inv_paths _ _ _ _ _ _ Hinv _ _ Hsv) as (pv & Hpv & Hwv).
  assert (Hwu : walk G weight s (pv ++ [u]) u (dv + weight_function weight e))
    by (eapply walk_step; eassumption).
  unfold relax. rewrite Hpv.
  destruct (dist st !! u) as [du|] eqn:Hdu.
  - destruct (inv_dist _ _ _ _ _ _ Hinv _ _ Hdu) as [Hsu Hopt].
    specialize (Hopt _ _ Hwu).
    destruct (Z.ltb_spec (dv + weight_function weight e) du); [lia|].
    eexists; split; [reflexivity|].
    eapply skip_inv; eassumption.
  - destruct (seen st !! u) as [su|] eqn:Hsu.
    + destruct (Z.ltb_spec (dv + weight_function weight e) su).
      * eexists; split; [reflexivity|].
        apply push_inv; try assumption.
        intros su' Hsu'. rewrite Hsu in Hsu'. inversion Hsu'; subst. assumption.
      * eexists; split; [reflexivity|].
        eapply skip_inv; eassumption.
    + eexists; split; [reflexivity|].
      apply push_inv; try assumption.
      intros su' Hsu'. rewrite Hsu in Hsu'. discriminate.
Qed.

Lemma relax_all_inv v dv todo st :
  search_inv G weight s v todo st ->
  dist st !! v = Some dv ->
  (forall ue, In ue todo -> succ_entry G v (fst ue) (snd ue)) ->
  exists st', relax_all H weight v dv todo st = inr st' /\
              search_inv G weight s v [] st'.
Proof.
  revert st. induction todo as [|[u e] todo IH]; intros st Hinv Hv Hent;
    cbn [relax_all].
  - eauto.
  - destruct (relax_inv v dv u e todo st Hinv Hv) as (st1 & Hrel & Hinv1).
    { apply (Hent (u, e)). now left. }
    rewrite Hrel.
    apply IH; [exact Hinv1 | | intros ue Hue; apply Hent; now right].
    apply (relax_frame H Hok) in Hrel. destruct Hrel as [-> _]. exact Hv.
Qed.

(** The invariant does not depend on the node named when nothing is left
    to relax. *)
Lemma search_inv_idle v v' st :
  search_inv G weight s v [] st -> search_inv G weight s v' [] st.
Proof.
  intros [HP HA HC HB HD HF HK]. constructor; try assumption.
  intros x dx u e Hx He. destruct (HD _ _ _ _ Hx He) as [[_ []]|Hr]. now right.
Qed.

(** The [while] loop ends without raising, and leaves for the target what
    [search_post] says. *)
Lemma dijkstra_loop_correct t fuel st v :
  search_inv G weight s v [] st ->
  (measure G st < fuel)%nat ->
  exists st', dijkstra_loop H G weight t fuel st = Some (inr st') /\
              search_post G weight s t st'.
Proof.
  revert st v. induction fuel as [|fuel IH]; intros st v Hinv Hm; [lia|].
  cbn [dijkstra_loop].
  destruct (hpop H (fringe st)) as [[[[d k] x] rest]|] eqn:Hpop.
  - apply (hpop_least H _ _ _ Hok) in Hpop. destruct Hpop as [Hperm Hmin].
    assert (Hlen := Permutation_length Hperm). simpl in Hlen.
    assert (Hin : In (d, k, x) (fringe st))
      by (eapply Permutation_in; [symmetry; exact Hperm | now left]).
    assert (Hrest : forall y, In y (fringe st) -> y = (d, k, x) \/ In y rest).
    { intros y Hy. apply (Permutation_in _ Hperm) in Hy.
      destruct Hy as [<-|Hy]; [now left | now right]. }
    assert (Hsub : forall y, In y rest -> In y (fringe st)).
    { intros y Hy. eapply Permutation_in; [symmetry; exact Hperm | now right]. }
    unfold measure in *.
    destruct (dist st !! x) as [dx|] eqn:Hx.
    + (* already searched *)
      apply (IH _ v); [|simpl; lia].
      destruct Hinv as [HP HA HC HB HD HF HK]. constructor; simpl; try assumption.
      * intros u su Hsu Hdu. destruct (HC _ _ Hsu Hdu) as (k' & Hk').
        destruct (Hrest _ Hk') as [Heq|Hr]; [|eauto].
        inversion Heq; subst. congruence.
      * intros d' k' u Hu. apply HB with k'. apply Hsub, Hu.
    + (* x gets its final distance d *)
      destruct (inv_fringe _ _ _ _ _ _ Hinv _ _ _ Hin) as (sx & Hsx & Hle).
      destruct (inv_waiting _ _ _ _ _ _ Hinv _ _ Hsx Hx) as (k' & Hk').
      pose proof Hmin as Hmin0.
      specialize (Hmin _ Hk'). simpl in Hmin.
      assert (sx = d) by lia. subst sx.
      destruct (inv_paths _ _ _ _ _ _ Hinv _ _ Hsx) as (px & Hpx & Hwx).
      assert (Hopt : forall p w, walk G weight s p x w -> d <= w).
      { intros p w Hw.
        destruct (fringe_lower_bound _ _ _ _ _ Hinv Hw Hx) as (d' & k'' & y & Hy & Hd').
        specialize (Hmin0 _ Hy). simpl in Hmin0. lia. }
      set (st2 := {| dist := <[x := d]> (dist st); seen := seen st;
                     paths := paths st; fringe := rest; c := c st |}).
      destruct (Z.eqb_spec x t) as [->|Hxt].
      * (* the target: break *)
        exists st2. split; [reflexivity|].
        unfold search_post. simpl. rewrite lookup_insert_eq. eauto.
      * destruct (G_succ G x) as [nbrs|] eqn:Hadj;
          [|exfalso; eapply (inv_adjacent _ _ _ _ _ _ Hinv); eassumption].
        assert (Hinv2 : search_inv G weight s x nbrs st2).
        { destruct Hinv as [HP HA HC HB HD HF HK]. constructor; simpl; try assumption.
          - intros y dy. destruct (decide (x = y)) as [<-|Hne].
            + rewrite lookup_insert_eq. intros [= <-]. split; assumption.
            + rewrite lookup_insert_ne by exact Hne. apply HA.
          - intros u su Hsu. destruct (decide (x = u)) as [<-|Hne].
            + rewrite lookup_insert_eq. discriminate.
            + rewrite lookup_insert_ne by exact Hne. intros Hdu.
              destruct (HC _ _ Hsu Hdu) as (k1 & Hk1).
              destruct (Hrest _ Hk1) as [Heq|Hr]; [|eauto].
              inversion Heq; subst. congruence.
          - intros d' k1 u Hu. apply HB with k1. apply Hsub, Hu.
          - intros y dy u e. destruct (decide (x = y)) as [<-|Hne].
            + intros _ (nbrs' & Hadj' & Hue). rewrite Hadj in Hadj'.
              inversion Hadj'; subst. left. split; [reflexivity | exact Hue].
            + rewrite lookup_insert_ne by exact Hne. intros Hy He.
              destruct (HD _ _ _ _ Hy He) as [[_ []]|Hr]. now right. }
        destruct (relax_all_inv x d nbrs st2 Hinv2) as (st3 & Hrel & Hinv3).
        { simpl. apply lookup_insert_eq. }
        { intros [u e] Hue. exists nbrs. split; [exact Hadj | exact Hue]. }
        fold st2. rewrite Hrel.
        apply (IH _ x); [exact Hinv3|].
        apply (relax_all_frame H Hok) in Hrel. destruct Hrel as [Hd Hf]. rewrite Hd.
        simpl in *.
        pose proof (pending_insert (_succ G) (dist st) x d nbrs Hx Hadj). lia.
  - apply (hpop_nil H Hok) in Hpop.
    exists st. split; [reflexivity|].
    unfold search_post. destruct (dist st !! t) as [dt|] eqn:Ht.
    + destruct (inv_dist _ _ _ _ _ _ Hinv _ _ Ht) as [Hst Hopt].
      destruct (inv_paths _ _ _ _ _ _ Hinv _ _ Hst) as (p & Hp & Hw).
      eauto.
    + intros p' w' Hw.
      destruct (fringe_lower_bound _ _ _ _ _ Hinv Hw Ht) as (d' & k' & y & Hy & _).
      rewrite Hpop in Hy. destruct Hy.
Qed.

End Search.

(** ** What [shortest_path] returns *)

(** The search from a node of the graph, towards another node. *)
Lemma shortest_path_search G s t weight :
  closed_adjacency G -> nonneg_weights G weight ->
  G_succ G s <> None -> t <> s ->
  exists st,
    shortest_path G s t weight =
      match dist st !! t, paths st !! t with
      | Some _, Some p => Some (inr p)
      | _, _ => Some (inl NetworkXNoPath)
      end /\
    search_post G weight s t st.
Proof.
  intros Hclosed Hnonneg Hs Hts.
  destruct (dijkstra_loop_correct list_heap list_heap_ok G weight s Hclosed Hnonneg
              t (enough_fuel G) (init_state list_heap s) s) as (st & Hloop & Hpost).
  - apply init_inv; [exact list_heap_ok | exact Hs].
  - apply init_measure, list_heap_ok.
  - exists st. split; [|exact Hpost].
    unfold shortest_path, dijkstra_path.
    destruct (Z.eqb_spec t s); [contradiction|].
    rewrite Hloop. reflexivity.
Qed.

(** The route between two nodes joined by a walk: it is a lightest walk. *)
Lemma shortest_path_route G s t weight :
  closed_adjacency G -> nonneg_weights G weight ->
  (exists p w, walk G weight s p t w) ->
  exists route w,
    shortest_path G s t weight = Some (inr route) /\
    walk G weight s route t w /\
    forall p' w', walk G weight s p' t w' -> w <= w'.
Proof.
  intros Hclosed Hnonneg (p0 & w0 & Hw0).
  destruct (decide (t = s)) as [->|Hts].
  - exists [s], 0. unfold shortest_path, dijkstra_path. rewrite Z.eqb_refl.
    split; [reflexivity|]. split; [constructor|].
    intros p' w'. apply walk_nonneg, Hnonneg.
  - assert (Hs : G_succ G s <> None) by (eapply walk_source_adjacent; eassumption).
    destruct (shortest_path_search G s t weight Hclosed Hnonneg Hs Hts)
      as (st & Hres & Hpost).
    unfold search_post in Hpost. destruct (dist st !! t) as [d|].
    + destruct Hpost as (p & Hp & Hw & Hopt). rewrite Hp in Hres. eauto.
    + exfalso. eapply Hpost, Hw0.
Qed.

(** C4: for every graph (of non-negative weights, whose edges lead to nodes
    of the graph), every node [s] of it and every [t] that no path from [s]
    reaches, [shortest_path] raises NetworkXNoPath: it returns no node
    sequence, and no other exception. *)
Theorem shortest_path_unreachable G s t weight :
  closed_adjacency G -> nonneg_weights G weight ->
  G_succ G s <> None ->
  (forall p w, ~ walk G weight s p t w) ->
  shortest_path G s t weight = Some (inl NetworkXNoPath) /\
  (forall route, shortest_path G s t weight <> Some (inr route)) /\
  (forall e, shortest_path G s t weight = Some (inl e) ->
             e <> KeyError /\ e <> ValueError /\ e <> IndexError).
Proof.
  intros Hclosed Hnonneg Hs Hno.
  assert (Hts : t <> s) by (intros ->; eapply Hno; constructor).
  destruct (shortest_path_search G s t weight Hclosed Hnonneg Hs Hts)
    as (st & Hres & Hpost).
  assert (H : shortest_path G s t weight = Some (inl NetworkXNoPath)).
  { unfold search_post in Hpost. destruct (dist st !! t) as [d|]; [|exact Hres].
    destruct Hpost as (p & _ & Hw & _). exfalso. eapply Hno, Hw. }
  rewrite H. split; [reflexivity|]. split; [discriminate|].
  intros e He. inversion He; subst. repeat split; discriminate.
Qed.

(** ** The graph invariants, checked by running *)

Lemma assoc_In {A} k (l : list (Z * A)) a : assoc k l = Some a -> In (k, a) l.
Proof.
  induction l as [|[k' a'] l IH]; simpl; [discriminate|].
  destruct (Z.eqb_spec k k') as [->|Hne]; intros H.
  - inversion H; subst. now left.
  - right. apply IH, H.
Qed.

Lemma closed_adjacencyb_sound G : closed_adjacencyb G = true -> closed_adjacency G.
Proof.
  unfold closed_adjacencyb. rewrite forallb_forall.
  intros H v u e (nbrs & Hadj & Hin).
  apply assoc_In in Hadj. specialize (H _ Hadj). simpl in H.
  rewrite forallb_forall in H. specialize (H _ Hin). simpl in H.
  destruct (G_succ G u); [discriminate | discriminate].
Qed.

Lemma nodes_listedb_sound G : nodes_listedb G = true -> nodes_listed G.
Proof.
  unfold nodes_listedb. rewrite forallb_forall.
  intros H v Hv. unfold G_succ in Hv.
  destruct (assoc v (_succ G)) as [nbrs|] eqn:Hadj; [|congruence].
  apply assoc_In in Hadj. specialize (H _ Hadj). simpl in H.
  destruct (assoc v (_node G)); [discriminate | discriminate].
Qed.

Lemma nonneg_weightsb_sound G weight :
  nonneg_weightsb G weight = true -> nonneg_weights G weight.
Proof.
  unfold nonneg_weightsb. rewrite forallb_forall.
  intros H v u e (nbrs & Hadj & Hin).
  apply assoc_In in Hadj. specialize (H _ Hadj). simpl in H.
  rewrite forallb_forall in H. specialize (H _ Hin). simpl in H.
  apply Z.leb_le, H.
Qed.

(** A node without successors is left by no walk. *)
Lemma walk_stuck G weight s p u w :
  G_succ G s = Some [] -> walk G weight s p u w -> u = s.
Proof.
  intros Hs. induction 1 as [|p v w u e Hw IH He]; [reflexivity|].
  subst v. destruct He as (nbrs & Hadj & Hin).
  rewrite Hs in Hadj. inversion Hadj; subst. destruct Hin.
Qed.

Lemma square_closed : closed_adjacency square.
Proof. apply closed_adjacencyb_sound. vm_compute. reflexivity. Defined.

Lemma square_nonneg : nonneg_weights square "distance".
Proof. apply nonneg_weightsb_sound. vm_compute. reflexivity. Defined.

Lemma square_listed : nodes_listed square.
Proof. apply nodes_listedb_sound. vm_compute. reflexivity. Defined.

Lemma square_walk : exists p w, walk square "distance" 1 p 3 w.
Proof.
  exists (([1] ++ [2]) ++ [3]),
         (0 + weight_function "distance" ([("distance"%string, 10)], [])
            + weight_function "distance" ([("distance"%string, 10)], [])).
  eapply walk_step; [eapply walk_step; [constructor|]|].
  - eexists; split; [reflexivity|]. now left.
  - eexists; split; [reflexivity|]. right. now left.
Defined.

Lemma two_islands_closed : closed_adjacency two_islands.
Proof. apply closed_adjacencyb_sound. vm_compute. reflexivity. Defined.

Lemma two_islands_nonneg : nonneg_weights two_islands "distance".
Proof. apply nonneg_weightsb_sound. vm_compute. reflexivity. Defined.

(** From node 1 of [two_islands] a walk stays on nodes 1 and 2. *)
Lemma two_islands_no_walk :
  forall p w, ~ walk two_islands "distance" 1 p 3 w.
Proof.
  intros p w Hw.
  assert (H : forall p u w, walk two_islands "distance" 1 p u w -> u = 1 \/ u = 2).
  { clear. induction 1 as [|p v w u e Hw IH He]; [now left|].
    destruct He as (nbrs & Hadj & Hin).
    destruct IH as [-> | ->]; inversion Hadj; subst;
      destruct Hin as [Hin|[]]; inversion Hin; auto. }
  destruct (H _ _ _ Hw); discriminate.
Defined.

(** The square of the specification: the diagonal, of weight 12, is taken
    rather than two sides of the perimeter. *)
Example shortest_path_square :
  shortest_path square 1 3 "distance" = Some (inr [1; 3]).
Proof. vm_compute. reflexivity. Qed.

(** Two components: no route between nodes of different components. *)
Example shortest_path_two_islands :
  shortest_path two_islands 1 3 "distance" = Some (inl NetworkXNoPath).
Proof. vm_compute. reflexivity. Qed.

Lemma shortest_path_unreachable_witness :
  closed_adjacency two_islands /\
  nonneg_weights two_islands "distance" /\
  G_succ two_islands 1 <> None /\
  (forall p w, ~ walk two_islands "distance" 1 p 3 w) /\
  shortest_path two_islands 1 3 "distance" = Some (inl NetworkXNoPath) /\
  (forall route, shortest_path two_islands 1 3 "distance" <> Some (inr route)) /\
  (forall e, shortest_path two_islands 1 3 "distance" = Some (inl e) ->
             e <> KeyError /\ e <> ValueError /\ e <> IndexError).
Proof.
  split; [exact two_islands_closed|].
  split; [exact two_islands_nonneg|].
  split; [discriminate|].
  split; [exact two_islands_no_walk|].
  apply (shortest_path_unreachable two_islands 1 3 "distance"
           two_islands_closed two_islands_nonneg);
    [discriminate | exact two_islands_no_walk].
Defined.

(** * Round trip: from the route to its line *)

Lemma head_map_some {A B} (f : A -> option B) (g : node_row -> B) route rows a :
  map f route = map (fun r => Some (g r)) rows ->
  head route = Some a ->
  exists b, f a = Some b /\ head (map g rows) = Some b.
Proof.
  destruct route as [|a' route]; [discriminate|].
  destruct rows as [|r rows]; [discriminate|].
  simpl. intros H [= ->]. inversion H. eauto.
Qed.

Lemma last_map_some {A B} (f : A -> option B) (g : node_row -> B) route rows a :
  map f route = map (fun r => Some (g r)) rows ->
  last route = Some a ->
  exists b, f a = Some b /\ last (map g rows) = Some b.
Proof.
  revert rows. induction route as [|a' route IH]; intros rows H Hl; [discriminate|].
  destruct rows as [|r rows]; [discriminate|].
  inversion H as [[H1 H2]].
  destruct route as [|a'' route].
  - destruct rows; [|discriminate]. simpl in Hl. inversion Hl; subst.
    simpl. eauto.
  - destruct rows as [|r' rows]; [discriminate|].
    destruct (IH (r' :: rows) H2 Hl) as (b & Hb & Hlast).
    exists b. split; [exact Hb | exact Hlast].
Qed.

(** C6 fails as stated: from node 1 to node 1 there is a path, the route
    returned is the single node 1, and no route row can be built from it. *)
Lemma round_trip_same_node :
  ~ (forall route, shortest_path two_nodes 1 1 "length" = Some (inr route) ->
       exists rg c1, route_geom two_nodes route = inr rg /\
                     coordinate two_nodes 1 = Some c1 /\
                     head (geometry rg) = Some c1 /\ last (geometry rg) = Some c1).
Proof.
  intros H. destruct (H [1] eq_refl) as (rg & c1 & Hrg & _).
  simpl in Hrg. discriminate.
Qed.

(** C6 (amended): for every graph (with the invariants of the data model)
    and every pair of distinct nodes joined by a path, the route row built
    from the sequence that [shortest_path] returns has a line whose first
    coordinate is the coordinate of the source and whose last coordinate is
    the coordinate of the target. *)
Theorem round_trip_endpoints G s t weight :
  closed_adjacency G -> nonneg_weights G weight -> nodes_listed G ->
  t <> s -> (exists p w, walk G weight s p t w) ->
  exists route rg cs ct,
    shortest_path G s t weight = Some (inr route) /\
    route_geom G route = inr rg /\
    coordinate G s = Some cs /\ coordinate G t = Some ct /\
    head (geometry rg) = Some cs /\ last (geometry rg) = Some ct.
Proof.
  intros Hclosed Hnonneg Hlisted Hts Hreach.
  destruct (shortest_path_route G s t weight Hclosed Hnonneg Hreach)
    as (route & w & Hres & Hw & _).
  destruct (walk_ends _ _ _ _ _ _ Hw) as [Hh Hl].
  assert (Hs : G_succ G s <> None) by (eapply walk_source_adjacent; eassumption).
  assert (Hk : known_nodes G route).
  { intros n Hn. apply Hlisted. eapply walk_adjacent; eassumption. }
  assert (Hlen : (2 <= length route)%nat) by (eapply walk_longer; eassumption).
  destruct (route_geom_known G route Hk Hlen)
    as (rows & ids & _ & Hc & _ & _ & _ & Hg).
  destruct (head_map_some _ _ _ _ _ Hc Hh) as (cs & Hcs & Hhead).
  destruct (last_map_some _ _ _ _ _ Hc Hl) as (ct & Hct & Hlast).
  exists route. eexists. exists cs, ct.
  split; [exact Hres|]. split; [exact Hg|]. simpl. auto.
Qed.

Lemma round_trip_endpoints_witness :
  closed_adjacency square /\ nonneg_weights square "distance" /\
  nodes_listed square /\ 3 <> 1 /\
  (exists p w, walk square "distance" 1 p 3 w) /\
  exists route rg cs ct,
    shortest_path square 1 3 "distance" = Some (inr route) /\
    route_geom square route = inr rg /\
    coordinate square 1 = Some cs /\ coordinate square 3 = Some ct /\
    head (geometry rg) = Some cs /\ last (geometry rg) = Some ct.
Proof.
  split; [exact square_closed|].
  split; [exact square_nonneg|].
  split; [exact square_listed|].
  split; [discriminate|].
  split; [exact square_walk|].
  apply (round_trip_endpoints square 1 3 "distance" square_closed square_nonneg
           square_listed); [discriminate | exact square_walk].
Defined.

(** * An edge without the weight key *)

Lemma attr_get_app k a b :
  attr_get k (a ++ b) = match attr_get k a with
                        | Some v => Some v
                        | None => attr_get k b
                        end.
Proof.
  induction a as [|[k' v] a IH]; simpl; [reflexivity|].
  destruct (String.eqb k k'); [reflexivity | exact IH].
Qed.

Lemma attr_weight_default weight a :
  attr_weight weight (attrs_default weight a) = attr_weight weight a.
Proof.
  unfold attrs_default, attr_weight.
  destruct (attr_get weight a) as [v|] eqn:E.
  - rewrite E. reflexivity.
  - rewrite attr_get_app, E. simpl. rewrite String.eqb_refl. reflexivity.
Qed.

Lemma attrs_default_keyed weight a : attr_get weight (attrs_default weight a) <> None.
Proof.
  unfold attrs_default. destruct (attr_get weight a) as [v|] eqn:E.
  - rewrite E. discriminate.
  - rewrite attr_get_app, E. simpl. rewrite String.eqb_refl. discriminate.
Qed.

Lemma weight_function_default weight e :
  weight_function weight (keydict_default weight e) = weight_function weight e.
Proof.
  unfold weight_function, keydict_default. simpl.
  rewrite attr_weight_default.
  generalize (attr_weight weight (fst e)).
  induction (snd e) as [|a l IH]; intros m; simpl; [reflexivity|].
  rewrite attr_weight_default. apply IH.
Qed.

Lemma G_succ_default weight G v :
  G_succ (graph_default weight G) v =
  match G_succ G v with
  | None => None
  | Some nbrs => Some (map (fun ue => (fst ue, keydict_default weight (snd ue))) nbrs)
  end.
Proof.
  unfold G_succ, graph_default. simpl.
  induction (_succ G) as [|[k nbrs] l IH]; simpl; [reflexivity|].
  destruct (v =? k); [reflexivity | exact IH].
Qed.

Lemma relax_default H weight v dv st u e :
  relax H weight v dv st (u, keydict_default weight e) = relax H weight v dv st (u, e).
Proof. unfold relax. rewrite weight_function_default. reflexivity. Qed.

Lemma relax_all_default H weight v dv nbrs st :
  relax_all H weight v dv
    (map (fun ue => (fst ue, keydict_default weight (snd ue))) nbrs) st =
  relax_all H weight v dv nbrs st.
Proof.
  revert st. induction nbrs as [|[u e] nbrs IH]; intros st; cbn [relax_all map fst snd];
    [reflexivity|].
  rewrite relax_default. destruct (relax H weight v dv st (u, e)); [reflexivity | apply IH].
Qed.

Lemma dijkstra_loop_default H weight G t fuel st :
  dijkstra_loop H (graph_default weight G) weight t fuel st =
  dijkstra_loop H G weight t fuel st.
Proof.
  revert st. induction fuel as [|fuel IH]; intros st; cbn [dijkstra_loop];
    [reflexivity|].
  destruct (hpop H (fringe st)) as [[[[d k] v] rest]|]; [|reflexivity].
  destruct (dist st !! v); [apply IH|].
  destruct (v =? t); [reflexivity|].
  rewrite G_succ_default. destruct (G_succ G v) as [nbrs|]; [|reflexivity].
  rewrite relax_all_default.
  destruct (relax_all H weight v d nbrs _); [reflexivity | apply IH].
Qed.

Lemma degree_sum_default weight G :
  degree_sum (_succ (graph_default weight G)) = degree_sum (_succ G).
Proof.
  unfold graph_default. simpl.
  induction (_succ G) as [|[k nbrs] l IH]; simpl; [reflexivity|].
  rewrite length_map, IH. reflexivity.
Qed.

Lemma graph_default_keyed weight G : all_keyed weight (graph_default weight G).
Proof.
  intros v u e (nbrs & Hadj & Hin) a Ha.
  rewrite G_succ_default in Hadj.
  destruct (G_succ G v) as [nbrs0|]; [|discriminate].
  inversion Hadj; subst. apply in_map_iff in Hin.
  destruct Hin as ([u0 e0] & Heq & _). inversion Heq; subst.
  simpl in Ha. destruct Ha as [<-|Ha].
  - apply attrs_default_keyed.
  - apply in_map_iff in Ha. destruct Ha as (a0 & <- & _). apply attrs_default_keyed.
Qed.

(** C1 fails as stated: in [keyless_triangle] the edge from 1 to 3 has no
    ["distance"] and a detour through node 2 exists, of finite weight 10
    under that key; the route returned runs over the edge without the
    key. *)
Lemma keyless_edge_traversed :
  ~ (forall route, shortest_path keyless_triangle 1 3 "distance" = Some (inr route) ->
                   Spec.total_weight keyless_triangle "distance" route <> None).
Proof. intros H. apply (H [1; 3]); reflexivity. Qed.

(** In [keyless_edge] the only edge has no ["distance"], and the route over
    it is returned, not NetworkXNoPath. *)
Example keyless_edge_route :
  shortest_path keyless_edge 1 2 "distance" = Some (inr [1; 2]) /\
  Spec.total_weight keyless_edge "distance" [1; 2] = None.
Proof. split; reflexivity. Qed.

(** The detour of [keyless_triangle] has the key on both edges. *)
Example keyless_triangle_detour :
  Spec.total_weight keyless_triangle "distance" [1; 2; 3] = Some 10.
Proof. reflexivity. Qed.

(** C1 (amended): for every graph and every shortest-path query, an edge on
    which the requested weight key is absent is weighed 1, the default of
    the weight function: the missing key raises nothing, the query always
    returns, and it answers exactly as on the graph in which every such edge
    carries the key with the value 1 (so the edge stays usable). *)
Theorem missing_key_weighs_one G s t weight :
  (forall a, attr_get weight a = None -> attr_weight weight a = 1) /\
  (forall a, attr_get weight a <> None -> attrs_default weight a = a) /\
  all_keyed weight (graph_default weight G) /\
  shortest_path G s t weight <> None /\
  shortest_path G s t weight = shortest_path (graph_default weight G) s t weight.
Proof.
  split; [intros a Ha; unfold attr_weight; rewrite Ha; reflexivity|].
  split; [intros a Ha; unfold attrs_default;
          destruct (attr_get weight a); [reflexivity | congruence]|].
  split; [apply graph_default_keyed|].
  split; [apply dijkstra_path_returns, list_heap_ok|].
  unfold shortest_path, dijkstra_path, enough_fuel.
  rewrite degree_sum_default, dijkstra_loop_default. reflexivity.
Qed.

(** * Determinism *)

Section TwoRuns.

Variables H1 H2 : heapq.
Hypothesis Hok1 : heapq_ok H1.
Hypothesis Hok2 : heapq_ok H2.

Lemma counter_inj (h : list item) a b :
  List.NoDup (map counter h) -> In a h -> In b h -> counter a = counter b -> a = b.
Proof.
  induction h as [|x h IH]; simpl; intros Hnd Ha Hb Heq; [destruct Ha|].
  inversion Hnd as [|? ? Hnotin Hnd']; subst.
  destruct Ha as [->|Ha], Hb as [->|Hb].
  - reflexivity.
  - exfalso. apply Hnotin. rewrite Heq. apply in_map, Hb.
  - exfalso. apply Hnotin. rewrite <- Heq. apply in_map, Ha.
  - apply IH; assumption.
Qed.

(** Both heaps take out the same tuple: the counters break every tie. *)
Lemma hpop_same f1 f2 :
  Permutation f1 f2 -> List.NoDup (map counter f1) ->
  match hpop H1 f1, hpop H2 f2 with
  | None, None => True
  | Some (m1, r1), Some (m2, r2) => m1 = m2 /\ Permutation r1 r2
  | _, _ => False
  end.
Proof.
  intros Hperm Hnd.
  destruct (hpop H1 f1) as [[m1 r1]|] eqn:E1, (hpop H2 f2) as [[m2 r2]|] eqn:E2.
  - destruct (hpop_min H1 Hok1 _ _ _ E1) as [Hp1 Hmin1].
    destruct (hpop_min H2 Hok2 _ _ _ E2) as [Hp2 Hmin2].
    assert (Hin1 : In m1 f1)
      by (eapply Permutation_in; [symmetry; exact Hp1 | now left]).
    assert (Hin2 : In m2 f1).
    { eapply Permutation_in; [symmetry; exact Hperm|].
      eapply Permutation_in; [symmetry; exact Hp2 | now left]. }
    assert (m1 = m2).
    { apply (counter_inj f1); try assumption.
      apply item_ltb_tie.
      - apply Hmin2. eapply Permutation_in; [exact Hperm | exact Hin1].
      - apply Hmin1, Hin2. }
    subst m2. split; [reflexivity|].
    apply Permutation_cons_inv with m1.
    rewrite <- Hp1, <- Hp2. exact Hperm.
  - apply (hpop_nil H2 Hok2) in E2. subst f2.
    apply Permutation_sym, Permutation_nil in Hperm. subst f1.
    destruct (hpop_min H1 Hok1 _ _ _ E1) as [Hp1 _].
    apply Permutation_nil in Hp1. discriminate.
  - apply (hpop_nil H1 Hok1) in E1. subst f1.
    apply Permutation_nil in Hperm. subst f2.
    destruct (hpop_min H2 Hok2 _ _ _ E2) as [Hp2 _].
    apply Permutation_nil in Hp2. discriminate.
  - exact I.
Qed.

Lemma relax_same weight v dv st1 st2 ue :
  same_search st1 st2 ->
  same_outcome (relax H1 weight v dv st1 ue) (relax H2 weight v dv st2 ue).
Proof.
  intros [Hd Hs Hp Hc Hf Hnd Hlt]. unfold relax. destruct ue as [u e].
  rewrite <- Hd, <- Hs, <- Hp, <- Hc.
  assert (Hpush : forall pv,
    same_outcome
      (inr {| dist := dist st1;
              seen := <[u := dv + weight_function weight e]> (seen st1);
              paths := <[u := pv ++ [u]]> (paths st1);
              fringe := hpush H1 (fringe st1) (dv + weight_function weight e, c st1, u);
              c := S (c st1) |})
      (inr {| dist := dist st1;
              seen := <[u := dv + weight_function weight e]> (seen st1);
              paths := <[u := pv ++ [u]]> (paths st1);
              fringe := hpush H2 (fringe st2) (dv + weight_function weight e, c st1, u);
              c := S (c st1) |})).
  { intros pv. constructor; simpl; try reflexivity.
    - rewrite (hpush_perm H1 Hok1), (hpush_perm H2 Hok2), Hf. reflexivity.
    - rewrite (hpush_perm H1 Hok1). simpl. constructor; [|exact Hnd].
      intros Hin. apply in_map_iff in Hin. destruct Hin as (x & Hx & Hxin).
      specialize (Hlt _ Hxin). unfold counter in *. simpl in *. lia.
    - intros x Hx. apply (in_hpush H1 Hok1) in Hx. destruct Hx as [->|Hx].
      + unfold counter. simpl. lia.
      + specialize (Hlt _ Hx). lia. }
  destruct (dist st1 !! u) as [du|].
  - destruct (_ <? _); simpl; [reflexivity|]. constructor; assumption.
  - destruct (seen st1 !! u) as [su|].
    + destruct (_ <? _).
      * destruct (paths st1 !! v) as [pv|]; [apply Hpush | reflexivity].
      * simpl. constructor; assumption.
    + destruct (paths st1 !! v) as [pv|]; [apply Hpush | reflexivity].
Qed.

Lemma relax_all_same weight v dv nbrs st1 st2 :
  same_search st1 st2 ->
  same_outcome (relax_all H1 weight v dv nbrs st1) (relax_all H2 weight v dv nbrs st2).
Proof.
  revert st1 st2. induction nbrs as [|ue nbrs IH]; intros st1 st2 Hsame;
    cbn [relax_all]; [exact Hsame|].
  pose proof (relax_same weight v dv st1 st2 ue Hsame) as Hstep.
  destruct (relax H1 weight v dv st1 ue) as [e1|a],
           (relax H2 weight v dv st2 ue) as [e2|b]; simpl in Hstep;
    try contradiction; [exact Hstep | apply IH, Hstep].
Qed.

Lemma dijkstra_loop_same G weight t fuel st1 st2 :
  same_search st1 st2 ->
  same_run (dijkstra_loop H1 G weight t fuel st1)
           (dijkstra_loop H2 G weight t fuel st2).
Proof.
  revert st1 st2. induction fuel as [|fuel IH]; intros st1 st2 Hsame;
    cbn [dijkstra_loop]; [exact I|].
  pose proof Hsame as [Hd Hs Hp Hc Hf Hnd Hlt].
  pose proof (hpop_same _ _ Hf Hnd) as Hpop.
  destruct (hpop H1 (fringe st1)) as [[[[d k] x] r1]|] eqn:E1,
           (hpop H2 (fringe st2)) as [[m2 r2]|] eqn:E2;
    try contradiction; [|exact Hsame].
  destruct Hpop as [<- Hr].
  destruct (hpop_min H1 Hok1 _ _ _ E1) as [Hp1 _].
  assert (Hnd1 : List.NoDup (map counter r1)).
  { apply (Permutation_map counter) in Hp1.
    apply (Permutation_NoDup Hp1) in Hnd. simpl in Hnd.
    inversion Hnd; assumption. }
  assert (Hlt1 : forall y, In y r1 -> (counter y < c st1)%nat).
  { intros y Hy. apply Hlt.
    eapply Permutation_in; [symmetry; exact Hp1 | now right]. }
  rewrite <- Hd.
  destruct (dist st1 !! x) as [dx|].
  - apply IH. constructor; simpl; try reflexivity; assumption.
  - destruct (x =? t).
    + simpl. constructor; simpl; try reflexivity; assumption.
    + destruct (G_succ G x) as [nbrs|]; [|reflexivity].
      match goal with
      | |- same_run (match relax_all H1 _ _ _ _ ?a with _ => _ end)
                    (match relax_all H2 _ _ _ _ ?b with _ => _ end) =>
          pose proof (relax_all_same weight x d nbrs a b) as Hrel
      end.
      destruct (relax_all H1 _ _ _ _ _) as [e1|a],
               (relax_all H2 _ _ _ _ _) as [e2|b]; simpl in Hrel.
      * apply Hrel. constructor; simpl; try reflexivity; assumption.
      * exfalso. apply Hrel. constructor; simpl; try reflexivity; assumption.
      * exfalso. apply Hrel. constructor; simpl; try reflexivity; assumption.
      * apply IH, Hrel. constructor; simpl; try reflexivity; assumption.
Qed.

Lemma init_same s : same_search (init_state H1 s) (init_state H2 s).
Proof.
  constructor; simpl; try reflexivity.
  - rewrite (hpush_perm H1 Hok1), (hpush_perm H2 Hok2). reflexivity.
  - rewrite (hpush_perm H1 Hok1). simpl. constructor; [intros [] | constructor].
  - intros x Hx. apply (in_hpush H1 Hok1) in Hx. destruct Hx as [->|[]].
    unfold counter. simpl. lia.
Qed.

Lemma dijkstra_path_same G s t weight :
  dijkstra_path H1 G s t weight = dijkstra_path H2 G s t weight.
Proof.
  unfold dijkstra_path. destruct (t =? s); [reflexivity|].
  pose proof (dijkstra_loop_same G weight t (enough_fuel G) _ _ (init_same s)) as Hrun.
  destruct (dijkstra_loop H1 _ _ _ _ _) as [[e1|a]|],
           (dijkstra_loop H2 _ _ _ _ _) as [[e2|b]|]; simpl in Hrun;
    try contradiction; [congruence| |reflexivity].
  destruct Hrun as [Hd _ Hp _ _ _ _]. rewrite Hd, Hp. reflexivity.
Qed.

End TwoRuns.

(** The diamond has two routes of weight 2 from node 1 to node 4.  The one
    through node 3 is returned: node 3 comes first among the successors of
    node 1, so its tuple has the lower counter.  It is not the one through
    the lower identifier. *)
Example shortest_path_diamond :
  shortest_path diamond 1 4 "distance" = Some (inr [1; 3; 4]) /\
  dijkstra_path queue_heap diamond 1 4 "distance" = Some (inr [1; 3; 4]).
Proof. split; vm_compute; reflexivity. Qed.

(** C7: two calls of [shortest_path] on the same graph with the same
    source, target and weight key return, and return the same node sequence
    (or raise the same exception), however the heap of each run arranges
    its tuples: among routes of equal weight the choice is fixed by the
    order in which tuples are pushed, which is the order of the successors
    in the graph. *)
Theorem shortest_path_deterministic H1 H2 G s t weight :
  heapq_ok H1 -> heapq_ok H2 ->
  dijkstra_path H1 G s t weight = dijkstra_path H2 G s t weight /\
  dijkstra_path H1 G s t weight = shortest_path G s t weight /\
  shortest_path G s t weight <> None.
Proof.
  intros Hok1 Hok2. split; [|split].
  - apply dijkstra_path_same; assumption.
  - apply dijkstra_path_same; [assumption | exact list_heap_ok].
  - apply dijkstra_path_returns, list_heap_ok.
Qed.

Lemma shortest_path_deterministic_witness :
  heapq_ok list_heap /\ heapq_ok queue_heap /\
  dijkstra_path list_heap diamond 1 4 "distance" =
    dijkstra_path queue_heap diamond 1 4 "distance" /\
  dijkstra_path list_heap diamond 1 4 "distance" =
    shortest_path diamond 1 4 "distance" /\
  shortest_path diamond 1 4 "distance" <> None.
Proof.
  split; [exact list_heap_ok|]. split; [exact queue_heap_ok|].
  exact (shortest_path_deterministic list_heap queue_heap diamond 1 4 "distance"
           list_heap_ok queue_heap_ok).
Defined.

(** * More on the search: what holds whatever the weights *)

Section Recorded.

Variable H : heapq.
Variable G : MultiDiGraph.
Variable weight : string.
Variable s : node.

Lemma init_paths_inv : paths_inv G weight s (init_state H s).
Proof.
  constructor; simpl; intros u p E; apply lookup_singleton_Some in E;
    destruct E as [<- <-].
  - exists 0. constructor.
  - exists []. split; [reflexivity|]. split; [intros x []|].
    constructor; [intros [] | constructor].
Qed.

Lemma paths_inv_dist st x d :
  paths_inv G weight s st ->
  paths_inv G weight s {| dist := <[x := d]> (dist st); seen := seen st;
                          paths := paths st; fringe := fringe st; c := c st |}.
Proof.
  intros [HW HS]. constructor; simpl; [exact HW|].
  intros u p E. destruct (HS _ _ E) as (pre & Hp & Hpre & Hnd).
  exists pre. split; [exact Hp|]. split; [|exact Hnd].
  intros y Hy. destruct (decide (x = y)) as [<-|Hne].
  - rewrite lookup_insert_eq. discriminate.
  - rewrite lookup_insert_ne by exact Hne. apply Hpre, Hy.
Qed.

Lemma paths_inv_fringe st f :
  paths_inv G weight s st ->
  paths_inv G weight s {| dist := dist st; seen := seen st;
                          paths := paths st; fringe := f; c := c st |}.
Proof. intros [HW HS]. constructor; simpl; assumption. Qed.

Lemma relax_paths_inv v dv st u e st' :
  paths_inv G weight s st -> dist st !! v <> None -> succ_entry G v u e ->
  relax H weight v dv st (u, e) = inr st' ->
  paths_inv G weight s st' /\ dist st' = dist st.
Proof.
  intros Hinv Hv He. pose proof Hinv as [HW HS]. unfold relax.
  assert (Hpush : dist st !! u = None ->
    match paths st !! v with
    | Some pv =>
        inr {| dist := dist st;
               seen := <[u := dv + weight_function weight e]> (seen st);
               paths := <[u := pv ++ [u]]> (paths st);
               fringe := hpush H (fringe st) (dv + weight_function weight e, c st, u);
               c := S (c st) |}
    | None => inl KeyError
    end = inr st' ->
    paths_inv G weight s st' /\ dist st' = dist st).
  { intros Hu. destruct (paths st !! v) as [pv|] eqn:Hpv; [|discriminate].
    intros E. inversion E; subst; clear E. split; [|reflexivity].
    destruct (HW _ _ Hpv) as (w & Hw).
    destruct (HS _ _ Hpv) as (pre & Hp & Hpre & Hnd).
    constructor; simpl; intros u' p'.
    - destruct (decide (u = u')) as [<-|Hne].
      + rewrite lookup_insert_eq. intros [= <-].
        eexists. eapply walk_step; eassumption.
      + rewrite lookup_insert_ne by exact Hne. apply HW.
    - destruct (decide (u = u')) as [<-|Hne].
      + rewrite lookup_insert_eq. intros [= <-].
        exists pv. split; [reflexivity|].
        assert (Hin : forall x, In x pv -> dist st !! x <> None).
        { intros x Hx. rewrite Hp in Hx. apply in_app_or in Hx.
          destruct Hx as [Hx|[<-|[]]]; [apply Hpre, Hx | exact Hv]. }
        split; [exact Hin|].
        apply List.NoDup_app; [exact Hnd | constructor; [intros [] | constructor] |].
        intros x Hx [<-|[]]. apply (Hin _ Hx), Hu.
      + rewrite lookup_insert_ne by exact Hne. apply HS. }
  destruct (dist st !! u) as [du|] eqn:Hdu.
  - destruct (_ <? _); intros E; inversion E; subst. auto.
  - destruct (seen st !! u) as [su|].
    + destruct (_ <? _); [apply Hpush; reflexivity|].
      intros E; inversion E; subst. auto.
    + apply Hpush. reflexivity.
Qed.

Lemma relax_all_paths_inv v dv nbrs st st' :
  paths_inv G weight s st -> dist st !! v <> None ->
  (forall ue, In ue nbrs -> succ_entry G v (fst ue) (snd ue)) ->
  relax_all H weight v dv nbrs st = inr st' ->
  paths_inv G weight s st'.
Proof.
  revert st. induction nbrs as [|[u e] nbrs IH]; intros st Hinv Hv Hent;
    cbn [relax_all]; intros E.
  - inversion E; subst. exact Hinv.
  - destruct (relax H weight v dv st (u, e)) as [x|st1] eqn:E1; [discriminate|].
    destruct (relax_paths_inv v dv st u e st1 Hinv Hv) as [Hinv1 Hd];
      [apply (Hent (u, e)); now left | exact E1 |].
    apply (IH st1); [exact Hinv1 | rewrite Hd; exact Hv | | exact E].
    intros ue Hue. apply Hent. now right.
Qed.

Lemma dijkstra_loop_paths_inv t fuel st st' :
  paths_inv G weight s st ->
  dijkstra_loop H G weight t fuel st = Some (inr st') ->
  paths_inv G weight s st'.
Proof.
  revert st. induction fuel as [|fuel IH]; intros st Hinv; cbn [dijkstra_loop];
    [discriminate|].
  destruct (hpop H (fringe st)) as [[[[d k] x] rest]|].
  - destruct (dist st !! x) as [dx|] eqn:Hx.
    + apply IH, paths_inv_fringe, Hinv.
    + pose proof (paths_inv_dist _ x d (paths_inv_fringe st rest Hinv)) as Hinv2.
      simpl in Hinv2.
      destruct (x =? t).
      * intros E. inversion E; subst. exact Hinv2.
      * destruct (G_succ G x) as [nbrs|] eqn:Hadj; [|discriminate].
        destruct (relax_all H weight x d nbrs _) as [e|st3] eqn:Hrel; [discriminate|].
        apply IH. eapply relax_all_paths_inv; [exact Hinv2 | | | exact Hrel].
        -- simpl. rewrite lookup_insert_eq. discriminate.
        -- intros [u e] Hue. exists nbrs. split; [exact Hadj | exact Hue].
  - intros E. inversion E; subst. exact Hinv.
Qed.

(** A route returned by [dijkstra_path] is a walk without repeated node. *)
Lemma dijkstra_path_sound t route :
  dijkstra_path H G s t weight = Some (inr route) ->
  (exists w, walk G weight s route t w) /\ List.NoDup route.
Proof.
  unfold dijkstra_path. destruct (Z.eqb_spec t s) as [->|Hts].
  - intros E. inversion E; subst. split.
    + exists 0. constructor.
    + constructor; [intros [] | constructor].
  - destruct (dijkstra_loop H G weight t (enough_fuel G) (init_state H s))
      as [[e|st]|] eqn:Hloop; try discriminate.
    apply dijkstra_loop_paths_inv in Hloop; [|apply init_paths_inv].
    destruct (dist st !! t); [|discriminate].
    destruct (paths st !! t) as [p|] eqn:Hp; [|discriminate].
    intros E. inversion E; subst.
    destruct Hloop as [HW HS]. split; [apply HW, Hp|].
    destruct (HS _ _ Hp) as (pre & _ & _ & Hnd). exact Hnd.
Qed.

End Recorded.

(** ** Routes are simple walks *)

(** X1: whatever the graph and the weights (negative ones included), a node
    sequence returned by [shortest_path] is a walk of the graph: it starts
    at the source, ends at the target, and each step follows an edge. *)
Theorem returned_route_is_walk G s t weight route :
  shortest_path G s t weight = Some (inr route) ->
  head route = Some s /\ last route = Some t /\
  exists w, walk G weight s route t w.
Proof.
  intros E. apply dijkstra_path_sound in E. destruct E as [(w & Hw) _].
  destruct (walk_ends _ _ _ _ _ _ Hw) as [Hh Hl]. eauto.
Qed.

Lemma returned_route_is_walk_witness :
  shortest_path square 1 3 "distance" = Some (inr [1; 3]) /\
  head [1; 3] = Some 1 /\ last [1; 3] = Some 3 /\
  exists w, walk square "distance" 1 [1; 3] 3 w.
Proof.
  split; [vm_compute; reflexivity|].
  apply (returned_route_is_walk square 1 3 "distance" [1; 3]).
  vm_compute; reflexivity.
Defined.

(** X2: whatever the graph and the weights, a node sequence returned by
    [shortest_path] visits no node twice. *)
Theorem returned_route_simple G s t weight route :
  shortest_path G s t weight = Some (inr route) -> List.NoDup route.
Proof. intros E. apply dijkstra_path_sound in E. apply E. Qed.

Lemma returned_route_simple_witness :
  shortest_path square 1 3 "distance" = Some (inr [1; 3]) /\ List.NoDup [1; 3].
Proof.
  split; [vm_compute; reflexivity|].
  apply (returned_route_simple square 1 3 "distance" [1; 3]).
  vm_compute; reflexivity.
Defined.

(** ** A key that no edge carries: the script's ['distance'] *)

Lemma keylessb_sound weight G : keylessb weight G = true -> keyless weight G.
Proof.
  unfold keylessb. rewrite forallb_forall.
  intros Hall v u e (nbrs & Hadj & Hin) a Ha.
  apply assoc_In in Hadj. specialize (Hall _ Hadj). simpl in Hall.
  rewrite forallb_forall in Hall. specialize (Hall _ Hin). simpl in Hall.
  apply andb_prop in Hall. destruct Hall as [H1 H2].
  destruct Ha as [<-|Ha].
  - destruct (attr_get weight (fst e)); [discriminate | reflexivity].
  - rewrite forallb_forall in H2. specialize (H2 _ Ha).
    destruct (attr_get weight a); [discriminate | reflexivity].
Qed.

Lemma weight_function_keyless weight e :
  (forall a, In a (fst e :: snd e) -> attr_get weight a = None) ->
  weight_function weight e = 1.
Proof.
  intros Hk. unfold weight_function.
  assert (H1 : attr_weight weight (fst e) = 1).
  { unfold attr_weight. rewrite (Hk (fst e)); [reflexivity | now left]. }
  rewrite H1.
  assert (Hrest : forall a, In a (snd e) -> attr_weight weight a = 1).
  { intros a Ha. unfold attr_weight. rewrite (Hk a); [reflexivity | now right]. }
  clear Hk H1.
  induction (snd e) as [|a l IH]; simpl; [reflexivity|].
  rewrite (Hrest a) by now left. simpl. apply IH.
  intros b Hb. apply Hrest. now right.
Qed.

Lemma keyless_nonneg weight G : keyless weight G -> nonneg_weights G weight.
Proof.
  intros Hk v u e He. rewrite weight_function_keyless; [lia|].
  eapply Hk, He.
Qed.

(** Without the key a walk weighs the number of its edges. *)
Lemma walk_keyless weight G s p u w :
  keyless weight G -> walk G weight s p u w -> w = Z.of_nat (length p) - 1.
Proof.
  intros Hk. induction 1 as [|p v w u e Hw IH He]; [reflexivity|].
  rewrite length_app. simpl. rewrite weight_function_keyless; [lia|].
  eapply Hk, He.
Qed.

(** X3: when no edge of the graph carries the weight key, as with the
    script's ['distance'] on edges that carry ['length'], the route returned
    between two nodes joined by a path is one of fewest edges: no walk from
    the source to the target has fewer nodes, whatever the other attributes
    of the edges are. *)
Theorem fewest_edges_without_key G s t weight :
  closed_adjacency G -> keyless weight G ->
  (exists p w, walk G weight s p t w) ->
  exists route,
    shortest_path G s t weight = Some (inr route) /\
    forall p' w', walk G weight s p' t w' -> (length route <= length p')%nat.
Proof.
  intros Hclosed Hk Hreach.
  destruct (shortest_path_route G s t weight Hclosed (keyless_nonneg _ _ Hk) Hreach)
    as (route & w & Hres & Hw & Hopt).
  exists route. split; [exact Hres|].
  intros p' w' Hw'. specialize (Hopt _ _ Hw').
  apply (walk_keyless _ _ _ _ _ _ Hk) in Hw.
  apply (walk_keyless _ _ _ _ _ _ Hk) in Hw'. lia.
Qed.

Lemma long_street_closed : closed_adjacency long_street.
Proof. apply closed_adjacencyb_sound. vm_compute. reflexivity. Defined.

Lemma long_street_keyless : keyless "distance" long_street.
Proof. apply keylessb_sound. vm_compute. reflexivity. Defined.

Lemma long_street_walk : exists p w, walk long_street "distance" 1 p 3 w.
Proof.
  exists ([1] ++ [3]), (0 + weight_function "distance" ([("length"%string, 100)], [])).
  eapply walk_step; [constructor|].
  eexists; split; [reflexivity|]. right. now left.
Defined.

Lemma fewest_edges_without_key_witness :
  closed_adjacency long_street /\ keyless "distance" long_street /\
  (exists p w, walk long_street "distance" 1 p 3 w) /\
  exists route,
    shortest_path long_street 1 3 "distance" = Some (inr route) /\
    forall p' w', walk long_street "distance" 1 p' 3 w' ->
                  (length route <= length p')%nat.
Proof.
  split; [exact long_street_closed|].
  split; [exact long_street_keyless|].
  split; [exact long_street_walk|].
  exact (fewest_edges_without_key long_street 1 3 "distance"
           long_street_closed long_street_keyless long_street_walk).
Defined.

(** On [long_street] the key ['distance'] gives the long street, of one
    edge; the key ['length'] gives the two short ones. *)
Example long_street_routes :
  shortest_path long_street 1 3 "distance" = Some (inr [1; 3]) /\
  shortest_path long_street 1 3 "length" = Some (inr [1; 2; 3]).
Proof. split; vm_compute; reflexivity. Qed.

(** ** A source that is not a node *)

Lemma hpop_single H x :
  heapq_ok H -> hpop H (hpush H [] x) = Some (x, []).
Proof.
  intros Hok. pose proof (hpush_perm H Hok [] x) as Hpush.
  destruct (hpop H (hpush H [] x)) as [[m r]|] eqn:E.
  - destruct (hpop_min H Hok _ _ _ E) as [Hperm _].
    rewrite Hpush in Hperm.
    pose proof (Permutation_length Hperm) as Hlen. simpl in Hlen.
    destruct r; [|discriminate].
    apply Permutation_length_1 in Hperm. subst. reflexivity.
  - apply (hpop_nil H Hok) in E. rewrite E in Hpush.
    apply Permutation_nil in Hpush. discriminate.
Qed.

(** X4: a query from an identifier that has no adjacency entry in the graph
    (it is not a node) to another identifier raises KeyError: the search
    gives the source the distance 0 and then looks its successors up. *)
Theorem source_not_a_node G s t weight :
  G_succ G s = None -> t <> s ->
  shortest_path G s t weight = Some (inl KeyError).
Proof.
  intros Hs Hts. unfold shortest_path, dijkstra_path.
  destruct (Z.eqb_spec t s) as [|_]; [contradiction|].
  unfold enough_fuel. cbn [dijkstra_loop].
  replace (hpop list_heap (fringe (init_state list_heap s)))
    with (Some ((0, O, s), @nil item))
    by (symmetry; apply (hpop_single list_heap _ list_heap_ok)).
  replace (dist (init_state list_heap s) !! s) with (@None Z)
    by (symmetry; apply lookup_empty).
  destruct (Z.eqb_spec s t) as [|_]; [congruence|].
  rewrite Hs. reflexivity.
Qed.

Lemma source_not_a_node_witness :
  G_succ square 7 = None /\ 3 <> 7 /\
  shortest_path square 7 3 "distance" = Some (inl KeyError).
Proof.
  split; [reflexivity|]. split; [discriminate|].
  apply (source_not_a_node square 7 3 "distance"); [reflexivity | discriminate].
Defined.

(** ** Parallel edges *)

Lemma fold_min_le (f : attrs -> Z) l m :
  fold_left (fun m a => Z.min m (f a)) l m <= m /\
  forall a, In a l -> fold_left (fun m a => Z.min m (f a)) l m <= f a.
Proof.
  revert m. induction l as [|b l IH]; intros m; simpl.
  - split; [lia | intros a []].
  - destruct (IH (Z.min m (f b))) as [H1 H2]. split; [lia|].
    intros a [<-|Ha]; [lia | apply H2, Ha].
Qed.

Lemma fold_min_attained (f : attrs -> Z) l m :
  fold_left (fun m a => Z.min m (f a)) l m = m \/
  exists a, In a l /\ fold_left (fun m a => Z.min m (f a)) l m = f a.
Proof.
  revert m. induction l as [|b l IH]; intros m; simpl; [now left|].
  destruct (IH (Z.min m (f b))) as [E|(a & Ha & E)].
  - rewrite E. destruct (Z.min_spec m (f b)) as [[_ ->]|[_ ->]].
    + now left.
    + right. exists b. split; [now left | reflexivity].
  - right. exists a. split; [now right | exact E].
Qed.

(** X5: between two nodes joined by several parallel edges, the weight the
    search uses is the least of the edges' weights (an edge without the key
    counted as 1): it is the weight of one of them and exceeds none. *)
Theorem weight_function_least weight e :
  (exists a, In a (fst e :: snd e) /\ weight_function weight e = attr_weight weight a) /\
  forall a, In a (fst e :: snd e) -> weight_function weight e <= attr_weight weight a.
Proof.
  unfold weight_function. split.
  - destruct (fold_min_attained (attr_weight weight) (snd e) (attr_weight weight (fst e)))
      as [E|(a & Ha & E)].
    + exists (fst e). split; [now left | exact E].
    + exists a. split; [now right | exact E].
  - destruct (fold_min_le (attr_weight weight) (snd e) (attr_weight weight (fst e)))
      as [H1 H2].
    intros a [<-|Ha]; [exact H1 | apply H2, Ha].
Qed.

(** ** The weight of a route under the key *)

Lemma key_min_fold key l m :
  (forall a, In a l -> attr_get key a <> None) ->
  fold_left (fun acc a => match acc, attr_get key a with
                          | Some m, Some w => Some (Z.min m w)
                          | _, _ => None
                          end) l (Some m) =
  Some (fold_left (fun m a => Z.min m (attr_weight key a)) l m).
Proof.
  revert m. induction l as [|a l IH]; intros m Hall; simpl; [reflexivity|].
  unfold attr_weight at 2.
  destruct (attr_get key a) as [w|] eqn:Ea.
  - apply IH. intros b Hb. apply Hall. now right.
  - exfalso. apply (Hall a); [now left | exact Ea].
Qed.

(** Where every parallel edge carries the key, the weight the search uses
    is the least value of the key. *)
Lemma key_min_keyed key e :
  (forall a, In a (fst e :: snd e) -> attr_get key a <> None) ->
  key_min key e = Some (weight_function key e).
Proof.
  intros Hall. unfold key_min, weight_function, attr_weight at 2.
  destruct (attr_get key (fst e)) as [w0|] eqn:E0.
  - apply key_min_fold. intros a Ha. apply Hall. now right.
  - exfalso. apply (Hall (fst e)); [now left | exact E0].
Qed.

Lemma keyed_nonneg_keyed key G v u e :
  keyed_nonneg key G -> succ_entry G v u e ->
  forall a, In a (fst e :: snd e) -> attr_get key a <> None.
Proof.
  intros Hk He a Ha. destruct (Hk _ _ _ He a Ha) as (w & -> & _). discriminate.
Qed.

Lemma keyed_nonneg_weights key G : keyed_nonneg key G -> nonneg_weights G key.
Proof.
  intros Hk v u e He. unfold weight_function.
  destruct (fold_min_attained (attr_weight key) (snd e) (attr_weight key (fst e)))
    as [E|(a & Ha & E)]; rewrite E.
  - destruct (Hk _ _ _ He (fst e)) as (w & Hw & Hpos); [now left|].
    unfold attr_weight. rewrite Hw. exact Hpos.
  - destruct (Hk _ _ _ He a) as (w & Hw & Hpos); [now right|].
    unfold attr_weight. rewrite Hw. exact Hpos.
Qed.

Lemma key_walk_walk key G s p u w :
  keyed_nonneg key G -> key_walk G key s p u w -> walk G key s p u w.
Proof.
  intros Hk. induction 1 as [|p v w u e m Hw IH He Hm]; [constructor|].
  rewrite (key_min_keyed key e (keyed_nonneg_keyed _ _ _ _ _ Hk He)) in Hm.
  inversion Hm; subst. eapply walk_step; eassumption.
Qed.

Lemma walk_key_walk key G s p u w :
  keyed_nonneg key G -> walk G key s p u w -> key_walk G key s p u w.
Proof.
  intros Hk. induction 1 as [|p v w u e Hw IH He]; [constructor|].
  eapply key_walk_step; [exact IH | exact He |].
  apply key_min_keyed. eapply keyed_nonneg_keyed; eassumption.
Qed.

Lemma key_walk_ends G key s p u w :
  key_walk G key s p u w -> head p = Some s /\ last p = Some u.
Proof.
  induction 1 as [|p v w u e m Hw [IHh IHl] He Hm]; [split; reflexivity|].
  split.
  - destruct p; [discriminate | exact IHh].
  - apply last_snoc.
Qed.

Lemma keyed_nonnegb_sound key G : keyed_nonnegb key G = true -> keyed_nonneg key G.
Proof.
  unfold keyed_nonnegb. rewrite forallb_forall.
  intros Hall v u e (nbrs & Hadj & Hin) a Ha.
  apply assoc_In in Hadj. specialize (Hall _ Hadj). simpl in Hall.
  rewrite forallb_forall in Hall. specialize (Hall _ Hin). simpl in Hall.
  apply andb_prop in Hall. destruct Hall as [H1 H2].
  destruct Ha as [<-|Ha].
  - destruct (attr_get key (fst e)) as [w|]; [|discriminate].
    exists w. split; [reflexivity | apply Z.leb_le, H1].
  - rewrite forallb_forall in H2. specialize (H2 _ Ha).
    destruct (attr_get key a) as [w|]; [|discriminate].
    exists w. split; [reflexivity | apply Z.leb_le, H2].
Qed.

Lemma key_walk_inv G key s p u w :
  key_walk G key s p u w ->
  (p = [s] /\ u = s /\ w = 0) \/
  exists p0 v w0 e m,
    p = p0 ++ [u] /\ key_walk G key s p0 v w0 /\ succ_entry G v u e /\
    key_min key e = Some m /\ w = w0 + m.
Proof.
  destruct 1 as [|p v w u e m Hw He Hm]; [now left|].
  right. exists p, v, w, e, m. auto.
Qed.

(** C2 fails as stated: in [keyless_triangle] the route returned from 1 to
    3 runs over the edge that has no ["distance"], so it has no cumulative
    weight under that key at all, while the path 1, 2, 3 weighs 10. *)
Lemma keyless_route_not_lightest :
  ~ (forall route,
       shortest_path keyless_triangle 1 3 "distance" = Some (inr route) ->
       exists w, key_walk keyless_triangle "distance" 1 route 3 w /\
                 forall p' w', key_walk keyless_triangle "distance" 1 p' 3 w' ->
                               w <= w').
Proof.
  intros Hclaim.
  assert (E : shortest_path keyless_triangle 1 3 "distance" = Some (inr [1; 3]))
    by (vm_compute; reflexivity).
  destruct (Hclaim _ E) as (w & Hw & _). clear E Hclaim.
  apply key_walk_inv in Hw.
  destruct Hw as [(Hp & _)|(p0 & v & w0 & e & m & Hp & Hp0 & He & Hm & _)];
    [discriminate|].
  assert (Hp1 : p0 = [1]).
  { destruct p0 as [|a [|b p0]]; try discriminate.
    - inversion Hp; subst. reflexivity.
    - inversion Hp as [[H1 H2]]. destruct p0; discriminate. }
  subst p0. apply key_walk_ends in Hp0. destruct Hp0 as [_ Hl].
  simpl in Hl. inversion Hl; subst v.
  destruct He as (nbrs & Hadj & Hin). inversion Hadj; subst nbrs.
  destruct Hin as [E|[E|[]]]; inversion E; subst e.
  vm_compute in Hm. discriminate.
Qed.

(** The other path of [keyless_triangle] and its weight under the key. *)
Example keyless_triangle_other_path :
  key_walk keyless_triangle "distance" 1 [1; 2; 3] 3 10.
Proof.
  change [1; 2; 3] with (([1] ++ [2]) ++ [3]). change 10 with ((0 + 5) + 5).
  eapply key_walk_step; [eapply key_walk_step; [constructor| |]| |].
  - eexists; split; [reflexivity|]. right. now left.
  - reflexivity.
  - eexists; split; [reflexivity|]. now left.
  - reflexivity.
Qed.

(** C2 (amended): for every graph whose edges all carry the weight key with
    a value that is not negative (and lead to nodes of the graph), and every
    pair of nodes joined by a path, [shortest_path] returns a node sequence
    that starts at the source and ends at the target, and whose cumulative
    weight under the key (each step counted at the least value of the key
    among its parallel edges) is at most that of every path from the source
    to the target. *)
Theorem shortest_path_least_key_weight G s t weight :
  closed_adjacency G -> keyed_nonneg weight G ->
  (exists p w, key_walk G weight s p t w) ->
  exists route w,
    shortest_path G s t weight = Some (inr route) /\
    head route = Some s /\ last route = Some t /\
    key_walk G weight s route t w /\
    forall p' w', key_walk G weight s p' t w' -> w <= w'.
Proof.
  intros Hclosed Hk (p0 & w0 & Hp0).
  assert (Hreach : exists p w, walk G weight s p t w).
  { exists p0, w0. apply key_walk_walk; assumption. }
  destruct (shortest_path_route G s t weight Hclosed (keyed_nonneg_weights _ _ Hk)
              Hreach) as (route & w & Hres & Hw & Hopt).
  apply (walk_key_walk _ _ _ _ _ _ Hk) in Hw.
  destruct (key_walk_ends _ _ _ _ _ _ Hw) as [Hh Hl].
  exists route, w. repeat split; try assumption.
  intros p' w' Hp'. apply (Hopt p' w'). apply key_walk_walk; assumption.
Qed.

Lemma square_keyed : keyed_nonneg "distance" square.
Proof. apply keyed_nonnegb_sound. vm_compute. reflexivity. Defined.

Lemma square_key_walk : exists p w, key_walk square "distance" 1 p 3 w.
Proof.
  exists (([1] ++ [2]) ++ [3]), ((0 + 10) + 10).
  eapply key_walk_step; [eapply key_walk_step; [constructor| |]| |].
  - eexists; split; [reflexivity|]. now left.
  - reflexivity.
  - eexists; split; [reflexivity|]. right. now left.
  - reflexivity.
Defined.

Lemma shortest_path_least_key_weight_witness :
  closed_adjacency square /\ keyed_nonneg "distance" square /\
  (exists p w, key_walk square "distance" 1 p 3 w) /\
  exists route w,
    shortest_path square 1 3 "distance" = Some (inr route) /\
    head route = Some 1 /\ last route = Some 3 /\
    key_walk square "distance" 1 route 3 w /\
    forall p' w', key_walk square "distance" 1 p' 3 w' -> w <= w'.
Proof.
  split; [exact square_closed|]. split; [exact square_keyed|].
  split; [exact square_key_walk|].
  exact (shortest_path_least_key_weight square 1 3 "distance" square_closed
           square_keyed square_key_walk).
Defined.

(** * More on the script: failures and compositions *)

Lemma In_assoc {A} k (a : A) l : In (k, a) l -> assoc k l <> None.
Proof.
  induction l as [|[k' a'] l IH]; simpl; [intros []|].
  intros [E|Hin].
  - inversion E; subst. rewrite Z.eqb_refl. discriminate.
  - destruct (k =? k'); [discriminate | apply IH, Hin].
Qed.

(** The node returned is the identifier of a node of the graph, as it comes
    back through a double. *)
Lemma get_nearest_node_known G yx n :
  get_nearest_node G yx = inr n ->
  exists m data, In (m, data) (_node G) /\ n = float64_int m.
Proof.
  unfold get_nearest_node.
  destruct (nearest euclidean G (snd yx, fst yx)) as [e'|[n' d]] eqn:E;
    [discriminate|].
  intros Heq. inversion Heq; subst. simpl.
  destruct (nearest_in_graph _ _ _ _ _ E) as (m & data & Hin & Hn & _).
  exists m, data. split; assumption.
Qed.

Lemma In_node_rows G m data :
  In (m, data) (_node G) -> exists r, assoc m (node_rows G) = Some r.
Proof.
  intros Hin. rewrite assoc_node_rows.
  pose proof (In_assoc _ _ _ Hin) as Hne.
  destruct (assoc m (_node G)); [eauto | congruence].
Qed.

(** X6: the nearest-node lookup raises only on a graph without nodes, and
    then ValueError; on any other graph it returns the identifier of a node
    of the graph as that identifier comes back through a double.  Where the
    identifier has at most 53 bits it comes back unchanged, and looking it
    up in the node table (lines 158-159) finds a row. *)
Theorem get_nearest_node_outcome G yx :
  (_node G = [] -> get_nearest_node G yx = inl ValueError) /\
  (forall e, get_nearest_node G yx = inl e -> e = ValueError /\ _node G = []) /\
  (forall n, get_nearest_node G yx = inr n ->
     exists m data, In (m, data) (_node G) /\ n = float64_int m /\
       (Z.abs m <= 2 ^ 53 ->
        n = m /\ exists r, assoc n (node_rows G) = Some r)).
Proof.
  unfold get_nearest_node. split; [|split].
  - intros Hnil. unfold nearest, distances. rewrite Hnil. reflexivity.
  - intros e. destruct (nearest euclidean G (snd yx, fst yx)) as [e'|r] eqn:E;
      [|discriminate].
    intros Heq. inversion Heq; subst. unfold nearest in E.
    destruct (idxmin (distances euclidean G (snd yx, fst yx))) as [r|] eqn:Ei;
      [discriminate|].
    inversion E; subst. split; [reflexivity|].
    apply idxmin_nil in Ei. unfold distances in Ei.
    apply map_eq_nil in Ei. exact Ei.
  - intros n Hn. fold (get_nearest_node G yx) in Hn.
    destruct (get_nearest_node_known _ _ _ Hn) as (m & data & Hin & Hm).
    exists m, data. split; [exact Hin|]. split; [exact Hm|].
    intros Hsmall. rewrite (float64_int_exact m Hsmall) in Hm. subst n.
    split; [reflexivity | eapply In_node_rows, Hin].
Qed.

(** The lookup on [far_id]: the identifier returned has no row. *)
Example far_id_no_row :
  get_nearest_node far_id (0, 0)%R = inr 9007199254740992 /\
  assoc 9007199254740992 (node_rows far_id) = None.
Proof.
  split; [|reflexivity].
  unfold get_nearest_node, nearest.
  change (distances euclidean far_id _)
    with [(9007199254740993, euclidean (0, 0)%R (0, 0)%R)].
  cbn [idxmin fst snd]. rewrite float64_int_rounds. reflexivity.
Qed.

(** The first row of largest x. *)
Lemma target_row_exists G :
  _node G <> [] ->
  exists r, target_row G = inr r /\ In r (node_rows G) /\
            forall r', In r' (node_rows G) -> (row_x (snd r') <= row_x (snd r))%R.
Proof.
  intros Hne.
  assert (Hx : map (fun r => row_x (snd r)) (node_rows G) <> []).
  { unfold node_rows. rewrite map_map. intros E. apply map_eq_nil in E. contradiction. }
  destruct (Rlist_max_spec _ Hx) as (mx & Hmx & Hin & Hmax).
  apply in_map_iff in Hin. destruct Hin as (r0 & Hr0 & Hin0).
  unfold target_row. rewrite (nodes_proj_rows G Hne). unfold maxx. rewrite Hmx.
  assert (Hf : In r0 (target_loc (node_rows G) mx)).
  { apply filter_In. split; [exact Hin0|].
    destruct (Req_dec_T (row_x (snd r0)) mx); [reflexivity | contradiction]. }
  destruct (target_loc (node_rows G) mx) as [|r rest] eqn:Hloc; [destruct Hf|].
  exists r. split; [reflexivity|].
  assert (Hr : In r (target_loc (node_rows G) mx)) by (rewrite Hloc; now left).
  apply filter_In in Hr. destruct Hr as [Hr Hrx]. split; [exact Hr|].
  destruct (Req_dec_T (row_x (snd r)) mx) as [->|]; [|discriminate].
  intros r' Hr'. apply Hmax. apply (in_map (fun r => row_x (snd r))), Hr'.
Qed.

(** X7: on a graph without nodes the script gets no target point: the node
    table cannot be built (KeyError at line 94), so lines 133-141 are not
    reached.  This is the only failure: on any other graph the target point
    is the point of a node of the graph that no node lies east of. *)
Theorem target_point_outcome G :
  (_node G = [] -> nodes_proj G = inl KeyError /\ target_point G = inl KeyError) /\
  (forall e, target_point G = inl e -> e = KeyError /\ _node G = []) /\
  (forall tp, target_point G = inr tp ->
     exists n d, In (n, d) (_node G) /\ tp = nd_point d /\
                 forall n' d', In (n', d') (_node G) -> (nd_x d' <= nd_x d)%R).
Proof.
  assert (Hnil : _node G = [] ->
                 nodes_proj G = inl KeyError /\ target_point G = inl KeyError).
  { intros Hnil. unfold target_point, target_row, nodes_proj.
    rewrite Hnil. split; reflexivity. }
  assert (Hcase : _node G = [] \/ _node G <> []).
  { destruct (_node G); [now left | right; discriminate]. }
  split; [exact Hnil|]. split.
  - intros e He. destruct Hcase as [Hempty|Hne].
    + rewrite (proj2 (Hnil Hempty)) in He. inversion He. auto.
    + exfalso. destruct (target_row_exists G Hne) as (r & Hr & _).
      unfold target_point in He. rewrite Hr in He. discriminate.
  - intros tp Htp. destruct Hcase as [Hempty|Hne].
    + rewrite (proj2 (Hnil Hempty)) in Htp. discriminate.
    + destruct (target_row_exists G Hne) as (r & Hr & Hin & Hmax).
      unfold target_point in Htp. rewrite Hr in Htp. inversion Htp; subst.
      unfold node_rows in Hin. apply in_map_iff in Hin.
      destruct Hin as ([n d] & <- & Hin). simpl.
      exists n, d. split; [exact Hin|]. split; [reflexivity|].
      intros n' d' Hin'.
      apply (Hmax (n', {| row_x := nd_x d'; row_y := nd_y d';
                          row_osmid := str_int (nd_osmid d');
                          row_geometry := (nd_x d', nd_y d') |})).
      unfold node_rows. apply in_map_iff. exists (n', d').
      split; [reflexivity | exact Hin'].
Qed.

(** ** The failures of the route row *)

Lemma loc_outcome tbl labels :
  match loc tbl labels with
  | inl e => e = KeyError /\ exists n, In n labels /\ assoc n tbl = None
  | inr rows => length rows = length labels /\
                forall n, In n labels -> assoc n tbl <> None
  end.
Proof.
  induction labels as [|n labels IH]; simpl.
  - split; [reflexivity | intros n []].
  - destruct (assoc n tbl) as [r|] eqn:En.
    + destruct (loc tbl labels) as [e|rows].
      * destruct IH as [-> (m & Hm & Hnone)]. split; [reflexivity|].
        exists m. split; [now right | exact Hnone].
      * destruct IH as [Hlen Hall]. split; [simpl; congruence|].
        intros m [<-|Hm]; [congruence | apply Hall, Hm].
    + split; [reflexivity|]. exists n. split; [now left | exact En].
Qed.

Lemma route_geom_rows G route :
  _node G <> [] ->
  route_geom G route =
    match loc (node_rows G) route with
    | inl e => inl e
    | inr rows =>
        match LineString (map row_geometry rows) with
        | inl e => inl e
        | inr line => inr {| geometry := line;
                             osmids := str_list (map row_osmid rows);
                             length_m := line_length line |}
        end
    end.
Proof.
  intros Hne. unfold route_geom, route_nodes.
  rewrite (nodes_proj_rows G Hne). reflexivity.
Qed.

(** X8: the route row fails in two ways only.  KeyError: the graph has no
    node (no node table, line 94) or some label of the sequence is not in
    the node table (line 189).  ValueError: the sequence is a single node
    of the graph, too few for a line.  In every other case the row is
    built; for the empty sequence it holds the empty line, the text of the
    empty list and the length 0. *)
Theorem route_geom_outcome G route :
  (route_geom G route = inl KeyError <->
     _node G = [] \/ exists n, In n route /\ assoc n (_node G) = None) /\
  (route_geom G route = inl ValueError <->
     known_nodes G route /\ length route = 1%nat) /\
  ((exists rg, route_geom G route = inr rg) <->
     _node G <> [] /\ known_nodes G route /\ length route <> 1%nat) /\
  (forall e, route_geom G route = inl e -> e = KeyError \/ e = ValueError) /\
  (_node G <> [] ->
   route_geom G [] = inr {| geometry := []; osmids := "[]"; length_m := 0 |}).
Proof.
  assert (Hcase : _node G = [] \/ _node G <> []).
  { destruct (_node G); [now left | right; discriminate]. }
  destruct Hcase as [Hempty|Hne].
  - assert (Hg : route_geom G route = inl KeyError).
    { unfold route_geom, route_nodes, nodes_proj. rewrite Hempty. reflexivity. }
    rewrite Hg. split; [|split; [|split; [|split]]].
    + split; [now left | reflexivity].
    + split; [discriminate|]. intros [Hk Hlen]. exfalso.
      destruct route as [|n route]; [discriminate|].
      apply (Hk n); [now left|]. rewrite Hempty. reflexivity.
    + split; [intros [rg E]; discriminate | intros [Hne _]; contradiction].
    + intros e E. inversion E. now left.
    + intros Hne. contradiction.
  - rewrite (route_geom_rows G route Hne).
    pose proof (loc_outcome (node_rows G) route) as Hloc.
    assert (Hassoc : forall n, assoc n (node_rows G) = None <-> assoc n (_node G) = None).
    { intros n. rewrite assoc_node_rows. destruct (assoc n (_node G)); split; congruence. }
    assert (Hlast : route_geom G [] =
                    inr {| geometry := []; osmids := "[]"; length_m := 0 |}).
    { rewrite (route_geom_rows G [] Hne). reflexivity. }
    unfold known_nodes.
    destruct (loc (node_rows G) route) as [e|rows].
    + destruct Hloc as [-> (m & Hm & Hnone)]. apply Hassoc in Hnone.
      split; [|split; [|split; [|split]]].
      * split; [intros _; right; eauto | reflexivity].
      * split; [discriminate|]. intros [Hk _]. exfalso. exact (Hk _ Hm Hnone).
      * split; [intros [rg E]; discriminate|].
        intros (_ & Hk & _). exfalso. exact (Hk _ Hm Hnone).
      * intros e E. inversion E. now left.
      * intros _. exact Hlast.
    + destruct Hloc as [Hlen Hall].
      assert (Hk : forall n, In n route -> assoc n (_node G) <> None).
      { intros n Hn E. apply Hassoc in E. exact (Hall n Hn E). }
      assert (Hlen' : length (map row_geometry rows) = length route)
        by (rewrite length_map; exact Hlen).
      unfold LineString.
      destruct (map row_geometry rows) as [|p [|q pts]] eqn:Hpts; simpl in Hlen'.
      * split; [|split; [|split; [|split]]].
        -- split; [discriminate|].
           intros [E|(n & Hn & E)]; [contradiction | exfalso; exact (Hk n Hn E)].
        -- split; [discriminate | intros [_ H1]; lia].
        -- split; [intros _; repeat split; [exact Hne | exact Hk | lia] | eauto].
        -- intros e E. discriminate.
        -- intros _. exact Hlast.
      * split; [|split; [|split; [|split]]].
        -- split; [discriminate|].
           intros [E|(n & Hn & E)]; [contradiction | exfalso; exact (Hk n Hn E)].
        -- split; [intros _; split; [exact Hk | lia] | reflexivity].
        -- split; [intros [rg E]; discriminate | intros (_ & _ & H1); lia].
        -- intros e E. inversion E. now right.
        -- intros _. exact Hlast.
      * split; [|split; [|split; [|split]]].
        -- split; [discriminate|].
           intros [E|(n & Hn & E)]; [contradiction | exfalso; exact (Hk n Hn E)].
        -- split; [discriminate | intros [_ H1]; lia].
        -- split; [intros _; repeat split; [exact Hne | exact Hk | lia] | eauto].
        -- intros e E. discriminate.
        -- intros _. exact Hlast.
Qed.

(** ** The identifiers of the route *)

Lemma loc_osmids G route rows :
  osmid_is_id G -> loc (node_rows G) route = inr rows ->
  map row_osmid rows = map str_int route.
Proof.
  intros Hid. revert rows. induction route as [|n route IH]; simpl; intros rows E.
  - inversion E. reflexivity.
  - rewrite assoc_node_rows in E.
    destruct (assoc n (_node G)) as [d|] eqn:En; [|discriminate].
    destruct (loc (node_rows G) route) as [e|rs]; [discriminate|].
    inversion E; subst. simpl. rewrite (IH rs eq_refl).
    apply assoc_In in En. rewrite (Hid _ _ En). reflexivity.
Qed.

(** X9: on a graph whose nodes carry their own identifier as [osmid] (as
    OSMnx graphs do), the [osmids] cell of a route row spells the route
    with every identifier between single quotes, the entries separated by a
    comma and a blank, the whole between square brackets: the [osmid] column
    holds text, so the cell is ['1', '2'] for the route 1, 2 and not the
    text of the route itself, [1, 2]. *)
Theorem osmids_spell_route G route rg :
  osmid_is_id G -> route_geom G route = inr rg ->
  route_osmids G route =
    inr (map (fun n => NilZero.string_of_int (Z.to_int n)) route) /\
  osmids rg =
    String.append "["
      (String.append
         (String.concat ", "
            (map (fun n => String.append "'"
                             (String.append (NilZero.string_of_int (Z.to_int n)) "'"))
                 route))
         "]").
Proof.
  intros Hid. unfold route_geom, route_osmids, route_nodes.
  destruct (nodes_proj G) as [e|tbl] eqn:Htbl; [discriminate|].
  assert (Ht : tbl = node_rows G).
  { unfold nodes_proj in Htbl. destruct (_node G); [discriminate|].
    inversion Htbl. reflexivity. }
  subst tbl.
  destruct (loc (node_rows G) route) as [e|rows] eqn:Hloc; [discriminate|].
  rewrite (loc_osmids G route rows Hid Hloc).
  destruct (LineString (map row_geometry rows)); [discriminate|].
  intros E. inversion E; subst. simpl.
  split; [reflexivity|]. unfold str_list, repr_str, str_int.
  rewrite map_map. reflexivity.
Qed.

Lemma two_nodes_osmid : osmid_is_id two_nodes.
Proof. intros n d [E|[E|[]]]; inversion E; reflexivity. Defined.

Lemma osmids_spell_route_witness :
  osmid_is_id two_nodes /\
  route_geom two_nodes [1; 2] =
    inr {| geometry := [(0, 0); (3, 4)]%R;
           osmids := "['1', '2']";
           length_m := line_length [(0, 0); (3, 4)]%R |} /\
  route_osmids two_nodes [1; 2] = inr ["1"%string; "2"%string] /\
  osmids {| geometry := [(0, 0); (3, 4)]%R;
            osmids := "['1', '2']";
            length_m := line_length [(0, 0); (3, 4)]%R |} = "['1', '2']"%string.
Proof.
  split; [exact two_nodes_osmid|]. split; [reflexivity|].
  apply (osmids_spell_route two_nodes [1; 2]); [exact two_nodes_osmid | reflexivity].
Defined.
(** * The script from the origin point to the route row *)

Lemma euclidean_sym p q : euclidean p q = euclidean q p.
Proof.
  unfold euclidean, euclidean_dist_vec. f_equal. ring.
Qed.

(** A target point is taken from a graph that has nodes. *)
Lemma target_point_nonempty G tp : target_point G = inr tp -> _node G <> [].
Proof.
  unfold target_point, target_row, nodes_proj. intros H Hnil.
  rewrite Hnil in H. discriminate.
Qed.






(** The script on [far_id]: both points snap to the rounded identifier,
    which has no row. *)
Example far_id_script : script far_id (0, 0)%R = Some (inl KeyError).
Proof.
  assert (Hn : get_nearest_node far_id (0, 0)%R = inr 9007199254740992)
    by apply far_id_no_row.
  assert (Hp : target_point far_id = inr (0, 0)%R).
  { unfold target_point, target_row, nodes_proj, node_rows, maxx, target_loc.
    cbn [_node far_id map fst snd nd_x nd_y nd_osmid Rlist_max row_x List.filter].
    destruct (Req_dec_T 0 0) as [_|Hne]; [reflexivity | congruence]. }
  unfold script, orig_node. rewrite Hp. cbn [fst snd]. rewrite Hn. reflexivity.
Qed.

(** X13: when the script builds a route row, the two nearest nodes are
    distinct, the route runs from the origin node to the target node along
    edges of the graph without visiting a node twice, and the line of the
    row starts at the coordinate of the origin node and ends at the
    coordinate of the target node. *)
Theorem script_route_row G op rg :
  script G op = Some (inr rg) ->
  exists o t r,
    orig_node G op = inr o /\ target_node G = inr t /\ o <> t /\
    route G op = Some (inr r) /\
    head r = Some o /\ last r = Some t /\ List.NoDup r /\
    (exists w, walk G "distance" o r t w) /\
    route_geom G r = inr rg /\
    exists co ct, coordinate G o = Some co /\ coordinate G t = Some ct /\
                  head (geometry rg) = Some co /\ last (geometry rg) = Some ct.
Proof.
  unfold script, route, target_node.
  destruct (target_point G) as [e|tp] eqn:Htp; [discriminate|].
  pose proof (target_point_nonempty G tp Htp) as Hne.
  destruct (orig_node G op) as [e|o]; [discriminate|].
  destruct (get_nearest_node G (snd tp, fst tp)) as [e|t]; [discriminate|].
  destruct (od_nodes G o t) as [e|rows2] eqn:Hod; [discriminate|].
  destruct (shortest_path G o t "distance") as [[e|r]|] eqn:Hsp; try discriminate.
  intros E. inversion E as [Hrg]. clear E.
  destruct (dijkstra_path_sound _ _ _ _ _ _ Hsp) as [(w & Hw) Hnd].
  destruct (walk_ends _ _ _ _ _ _ Hw) as [Hh Hl].
  pose proof (loc_outcome (node_rows G) r) as Hloc.
  assert (Hr2 : (2 <= length r)%nat).
  { destruct r as [|a [|b r]]; simpl; try lia; [discriminate|].
    unfold shortest_path, dijkstra_path in Hsp. simpl in Hh, Hl.
    inversion Hh; inversion Hl; subst. exfalso.
    unfold od_nodes in Hod. rewrite (nodes_proj_rows G Hne) in Hod.
    rewrite (route_geom_rows G [t] Hne) in Hrg. simpl in Hrg.
    destruct (assoc t (node_rows G)); discriminate. }
  assert (Hk : known_nodes G r).
  { rewrite (route_geom_rows G r Hne) in Hrg.
    destruct (loc (node_rows G) r) as [e|rows]; [discriminate|].
    destruct Hloc as [Hlen Hall].
    intros n Hn En. apply (Hall n Hn). rewrite assoc_node_rows, En. reflexivity. }
  pose proof Hr2 as Hlen.
  destruct (route_geom_known G r Hk Hlen) as (rows & ids & _ & Hc & _ & _ & _ & Hg).
  rewrite Hrg in Hg. inversion Hg; subst rg. clear Hg.
  destruct (head_map_some _ _ _ _ _ Hc Hh) as (co & Hco & Hhead).
  destruct (last_map_some _ _ _ _ _ Hc Hl) as (ct & Hct & Hlast).
  exists o, t, r. repeat split; try assumption; try reflexivity.
  - intros ->. destruct r as [|a [|b r]]; simpl in Hlen; try lia.
    simpl in Hh. inversion Hh; subst a.
    inversion Hnd as [|? ? Hnotin _]; subst.
    apply Hnotin. clear - Hl.
    assert (Hlast : last (b :: r) = Some t) by exact Hl.
    clear Hl. revert b Hlast. induction r as [|x r IH]; intros b Hlast.
    + simpl in Hlast. inversion Hlast. now left.
    + right. apply (IH x). exact Hlast.
  - eauto.
  - exists co, ct. simpl. auto.
Qed.

Lemma two_nodes_target_point : target_point two_nodes = inr (3, 4)%R.
Proof.
  unfold target_point, target_row, nodes_proj, maxx, target_loc. simpl.
  rewrite Rmax_right by lra.
  destruct (Req_dec_T 0 3) as [Hbad|_]; [lra|].
  destruct (Req_dec_T 3 3) as [_|Hbad]; [reflexivity | congruence].
Defined.

Lemma two_nodes_orig_node : orig_node two_nodes (0, 0)%R = inr 1.
Proof.
  unfold orig_node, get_nearest_node, nearest.
  change (distances euclidean two_nodes _)
    with ([] ++ (1, euclidean (0, 0)%R (0, 0)%R) :: [(2, euclidean (0, 0)%R (3, 4)%R)]).
  rewrite idxmin_first.
  - reflexivity.
  - intros x [].
  - intros x [<-|[]]. simpl. rewrite euclidean_same. apply euclidean_nonneg.
Defined.

Lemma two_nodes_target_nearest : get_nearest_node two_nodes (4, 3)%R = inr 2.
Proof.
  unfold get_nearest_node, nearest.
  change (distances euclidean two_nodes _)
    with ([(1, euclidean (3, 4)%R (0, 0)%R)] ++ (2, euclidean (3, 4)%R (3, 4)%R) :: []).
  rewrite idxmin_first.
  - reflexivity.
  - intros x [<-|[]]. simpl.
    rewrite euclidean_same, euclidean_sym, euclidean_3_4. lra.
  - intros x [].
Defined.

Lemma two_nodes_script :
  script two_nodes (0, 0)%R =
    Some (inr {| geometry := [(0, 0); (3, 4)]%R;
                 osmids := "['1', '2']";
                 length_m := line_length [(0, 0); (3, 4)]%R |}).
Proof.
  unfold script. rewrite two_nodes_target_point, two_nodes_orig_node.
  simpl snd. simpl fst. rewrite two_nodes_target_nearest. reflexivity.
Defined.

Lemma script_route_row_witness :
  script two_nodes (0, 0)%R =
    Some (inr {| geometry := [(0, 0); (3, 4)]%R;
                 osmids := "['1', '2']";
                 length_m := line_length [(0, 0); (3, 4)]%R |}) /\
  exists o t r,
    orig_node two_nodes (0, 0)%R = inr o /\ target_node two_nodes = inr t /\
    o <> t /\ route two_nodes (0, 0)%R = Some (inr r) /\
    head r = Some o /\ last r = Some t /\ List.NoDup r /\
    (exists w, walk two_nodes "distance" o r t w) /\
    route_geom two_nodes r =
      inr {| geometry := [(0, 0); (3, 4)]%R;
             osmids := "['1', '2']";
             length_m := line_length [(0, 0); (3, 4)]%R |} /\
    exists co ct, coordinate two_nodes o = Some co /\
                  coordinate two_nodes t = Some ct /\
                  head [(0, 0); (3, 4)]%R = Some co /\
                  last [(0, 0); (3, 4)]%R = Some ct.
Proof.
  split; [exact two_nodes_script|].
  exact (script_route_row two_nodes (0, 0)%R _ two_nodes_script).
Defined.

(** * The origin point: the centre of the bounding box *)

Lemma Rlist_min_spec l :
  l <> [] ->
  exists m, Rlist_min l = Some m /\ In m l /\ forall x, In x l -> (m <= x)%R.
Proof.
  induction l as [|h t IH]; [congruence|]. intros _. simpl.
  destruct t as [|h' t'].
  - exists h. simpl. split; [reflexivity|]. split; [now left|].
    intros x [<-|[]]. lra.
  - destruct IH as (m & -> & Hin & Hmin); [discriminate|].
    exists (Rmin h m). split; [reflexivity|]. split.
    + unfold Rmin. destruct (Rle_dec h m); [now left | right; exact Hin].
    + intros x [<-|Hx].
      * apply Rmin_l.
      * eapply Rle_trans; [apply Rmin_r | apply Hmin, Hx].
Qed.

Lemma Rlist_min_nil l : Rlist_min l = None -> l = [].
Proof.
  destruct l as [|h t]; [reflexivity|]. simpl.
  destruct (Rlist_min t); discriminate.
Qed.

Lemma Rlist_max_nil l : Rlist_max l = None -> l = [].
Proof.
  destruct l as [|h t]; [reflexivity|]. simpl.
  destruct (Rlist_max t); discriminate.
Qed.

(** X14: the origin point exists exactly when the edge lines have a
    coordinate at all; the bounds then enclose every coordinate of every
    edge line, and the origin point, the centre of the box, lies within the
    bounds. *)
Theorem orig_point_in_bounds geoms :
  (orig_point geoms = None <-> List.concat geoms = []) /\
  forall op, orig_point geoms = Some op ->
    exists minx miny maxx maxy,
      bounds geoms = Some (minx, miny, maxx, maxy) /\
      (forall l p, In l geoms -> In p l ->
                   (minx <= fst p <= maxx)%R /\ (miny <= snd p <= maxy)%R) /\
      (minx <= fst op <= maxx)%R /\ (miny <= snd op <= maxy)%R.
Proof.
  unfold orig_point, bounds.
  destruct (List.concat geoms) as [|p0 pts] eqn:Hpts.
  - simpl. split; [split; reflexivity | discriminate].
  - assert (Hin : forall l p, In l geoms -> In p l -> In p (p0 :: pts)).
    { intros l p Hl Hp. rewrite <- Hpts. apply in_concat. eauto. }
    assert (Hfst : map fst (p0 :: pts) <> []) by discriminate.
    assert (Hsnd : map snd (p0 :: pts) <> []) by discriminate.
    destruct (Rlist_min_spec _ Hfst) as (minx & -> & Hminx_in & Hminx).
    destruct (Rlist_min_spec _ Hsnd) as (miny & -> & Hminy_in & Hminy).
    destruct (Rlist_max_spec _ Hfst) as (maxx & -> & Hmaxx_in & Hmaxx).
    destruct (Rlist_max_spec _ Hsnd) as (maxy & -> & Hmaxy_in & Hmaxy).
    split; [split; discriminate|].
    intros op E. inversion E; subst op. clear E.
    exists minx, miny, maxx, maxy. split; [reflexivity|].
    assert (Hx : (minx <= maxx)%R) by (apply Hmaxx, Hminx_in).
    assert (Hy : (miny <= maxy)%R) by (apply Hmaxy, Hminy_in).
    split.
    + intros l p Hl Hp. specialize (Hin l p Hl Hp).
      pose proof (in_map fst _ _ Hin) as H1. pose proof (in_map snd _ _ Hin) as H2.
      split; split; auto.
    + simpl. repeat split; lra.
Qed.

(** * More on shortest routes *)

(** X15: shortest routes obey the triangle rule: when an edge leads from
    [v] to [t], the route found to [t] weighs no more than the route found
    to [v] plus that edge. *)
Theorem shortest_route_triangle G s v t e weight :
  closed_adjacency G -> nonneg_weights G weight ->
  (exists p w, walk G weight s p v w) -> succ_entry G v t e ->
  exists rv wv rt wt,
    shortest_path G s v weight = Some (inr rv) /\ walk G weight s rv v wv /\
    shortest_path G s t weight = Some (inr rt) /\ walk G weight s rt t wt /\
    wt <= wv + weight_function weight e.
Proof.
  intros Hclosed Hnonneg Hreach He.
  destruct (shortest_path_route G s v weight Hclosed Hnonneg Hreach)
    as (rv & wv & Hrv & Hwv & _).
  assert (Hvia : walk G weight s (rv ++ [t]) t (wv + weight_function weight e))
    by (eapply walk_step; eassumption).
  destruct (shortest_path_route G s t weight Hclosed Hnonneg)
    as (rt & wt & Hrt & Hwt & Hopt); [eauto|].
  exists rv, wv, rt, wt. repeat split; try assumption.
  apply (Hopt _ _ Hvia).
Qed.

Lemma square_edge_2_3 :
  succ_entry square 2 3 ([("distance"%string, 10)], []).
Proof. eexists; split; [reflexivity|]. right. now left. Defined.

Lemma square_walk_1_2 : exists p w, walk square "distance" 1 p 2 w.
Proof.
  exists ([1] ++ [2]), (0 + weight_function "distance" ([("distance"%string, 10)], [])).
  eapply walk_step; [constructor|].
  eexists; split; [reflexivity|]. now left.
Defined.

Lemma shortest_route_triangle_witness :
  closed_adjacency square /\ nonneg_weights square "distance" /\
  (exists p w, walk square "distance" 1 p 2 w) /\
  succ_entry square 2 3 ([("distance"%string, 10)], []) /\
  exists rv wv rt wt,
    shortest_path square 1 2 "distance" = Some (inr rv) /\
    walk square "distance" 1 rv 2 wv /\
    shortest_path square 1 3 "distance" = Some (inr rt) /\
    walk square "distance" 1 rt 3 wt /\
    wt <= wv + weight_function "distance" ([("distance"%string, 10)], []).
Proof.
  split; [exact square_closed|]. split; [exact square_nonneg|].
  split; [exact square_walk_1_2|]. split; [exact square_edge_2_3|].
  exact (shortest_route_triangle square 1 2 3 _ "distance" square_closed
           square_nonneg square_walk_1_2 square_edge_2_3).
Defined.

(** An edge put in front of a walk. *)
Lemma walk_cons G weight u v e p t w :
  succ_entry G u v e -> walk G weight v p t w ->
  walk G weight u (u :: p) t (weight_function weight e + w).
Proof.
  intros He. induction 1 as [|p x w y e' Hw IH He'].
  - replace (weight_function weight e + 0) with (0 + weight_function weight e) by lia.
    apply (walk_step G weight u [u] u 0 v e); [constructor | exact He].
  - replace (weight_function weight e + (w + weight_function weight e'))
      with ((weight_function weight e + w) + weight_function weight e') by lia.
    apply (walk_step G weight u (u :: p) x _ y e'); assumption.
Qed.

(** On two-way streets every walk can be walked back, at the same weight. *)
Lemma walk_back G weight s p t w :
  two_way G weight -> walk G weight s p t w ->
  exists p', walk G weight t p' s w.
Proof.
  intros Htw. induction 1 as [|p v w u e Hw IH He].
  - exists [s]. constructor.
  - destruct IH as (p' & Hp').
    destruct (Htw _ _ _ He) as (e' & He' & Heq).
    exists (u :: p').
    replace (w + weight_function weight e) with (weight_function weight e' + w) by lia.
    apply (walk_cons G weight u v e'); assumption.
Qed.

Lemma two_wayb_sound G weight : two_wayb G weight = true -> two_way G weight.
Proof.
  unfold two_wayb. rewrite forallb_forall.
  intros Hall v u e (nbrs & Hadj & Hin).
  pose proof (assoc_In _ _ _ Hadj) as Hv. specialize (Hall _ Hv). simpl in Hall.
  rewrite forallb_forall in Hall. specialize (Hall _ Hin). simpl in Hall.
  destruct (G_succ G u) as [back|] eqn:Hu; [|discriminate].
  apply existsb_exists in Hall. destruct Hall as ([x e'] & Hx & Hcond).
  simpl in Hcond. apply andb_prop in Hcond. destruct Hcond as [H1 H2].
  apply Z.eqb_eq in H1. apply Z.eqb_eq in H2. subst x.
  exists e'. split; [|exact H2]. exists back. split; [exact Hu | exact Hx].
Qed.

(** X16: on a network of two-way streets (every edge has an edge back of
    the same weight) the route found from [s] to [t] and the route found
    from [t] to [s] have the same cumulative weight. *)
Theorem two_way_same_weight G s t weight :
  closed_adjacency G -> nonneg_weights G weight -> two_way G weight ->
  (exists p w, walk G weight s p t w) ->
  exists out back w,
    shortest_path G s t weight = Some (inr out) /\ walk G weight s out t w /\
    shortest_path G t s weight = Some (inr back) /\ walk G weight t back s w.
Proof.
  intros Hclosed Hnonneg Htw Hreach.
  destruct (shortest_path_route G s t weight Hclosed Hnonneg Hreach)
    as (out & w1 & Hout & Hw1 & Hopt1).
  destruct (walk_back _ _ _ _ _ _ Htw Hw1) as (p' & Hp').
  destruct (shortest_path_route G t s weight Hclosed Hnonneg)
    as (back & w2 & Hback & Hw2 & Hopt2); [eauto|].
  destruct (walk_back _ _ _ _ _ _ Htw Hw2) as (p'' & Hp'').
  assert (w1 = w2).
  { specialize (Hopt1 _ _ Hp''). specialize (Hopt2 _ _ Hp'). lia. }
  subst w2. exists out, back, w1. auto.
Qed.

Lemma square_two_way : two_way square "distance".
Proof. apply two_wayb_sound. vm_compute. reflexivity. Defined.

Lemma two_way_same_weight_witness :
  closed_adjacency square /\ nonneg_weights square "distance" /\
  two_way square "distance" /\
  (exists p w, walk square "distance" 1 p 3 w) /\
  exists out back w,
    shortest_path square 1 3 "distance" = Some (inr out) /\
    walk square "distance" 1 out 3 w /\
    shortest_path square 3 1 "distance" = Some (inr back) /\
    walk square "distance" 3 back 1 w.
Proof.
  split; [exact square_closed|]. split; [exact square_nonneg|].
  split; [exact square_two_way|]. split; [exact square_walk|].
  exact (two_way_same_weight square 1 3 "distance" square_closed square_nonneg
           square_two_way square_walk).
Defined.
